(** * algebra_h: matrix engine, linear solver and FFT

    A shallow embedding of [matrix.h], [gauss.h] and [fft.h].

    The C++ templates are Sections over the numeric type.  A call either
    returns, throws [degenerate_matrix_error], trips an [assert], or indexes
    a [std::vector] out of range; [outcome] keeps the four apart.  Loops
    over a fixed index range are folds; the loops whose step is not [++i],
    or whose bound wraps around, run on fuel, and [outcome] has a fifth
    case for the fuel running out. *)

From Stdlib Require Import ZArith QArith Qcanon Lia.
From stdpp Require Import base tactics option list numbers strings.

(** ** Outcomes *)

(** The only exception class of the repository. *)
Inductive exn := degenerate_matrix_error.

Inductive outcome (A : Type) : Type :=
| Ret (a : A)          (* the call returns [a] *)
| Throw (e : exn)      (* a C++ exception leaves the call *)
| AssertFail           (* an [assert] does not hold: the process aborts *)
| Undefined            (* [operator[]] of a vector out of its range *)
| OutOfFuel.           (* a fuelled loop was still running when the fuel ended *)
Arguments Ret {A} a.
Arguments Throw {A} e.
Arguments AssertFail {A}.
Arguments Undefined {A}.
Arguments OutOfFuel {A}.

Definition outcome_bind {A B} (f : A → outcome B) (m : outcome A) : outcome B :=
  match m with
  | Ret a => f a
  | Throw e => Throw e
  | AssertFail => AssertFail
  | Undefined => Undefined
  | OutOfFuel => OutOfFuel
  end.

#[global] Instance outcome_ret : MRet outcome := @Ret.
#[global] Instance outcome_mbind : MBind outcome := @outcome_bind.

(** [assert(c)] *)
Definition assert (c : bool) : outcome unit :=
  if c then Ret tt else AssertFail.

(** ** Vectors *)

(** [v[i]] as an rvalue. *)
Definition vec_get {A} (v : list A) (i : nat) : outcome A :=
  match v !! i with
  | Some x => Ret x
  | None => Undefined
  end.

(** [v[i] = x]. *)
Definition vec_set {A} (v : list A) (i : nat) (x : A) : outcome (list A) :=
  if decide (i < length v) then Ret (<[i := x]> v) else Undefined.

(** [std::swap(v[i], v[j])]. *)
Definition vec_swap {A} (v : list A) (i j : nat) : outcome (list A) :=
  a ← vec_get v i;
  b ← vec_get v j;
  v ← vec_set v i b;
  vec_set v j a.

(** [v.resize(n)] with value-initialised new elements [x]. *)
Definition resize {A} (n : nat) (x : A) (v : list A) : list A :=
  take n v ++ replicate (n - length v) x.

(** ** Loops *)

(** [for (size_t k = lo; k < lo + count; ++k) body], on a state [S]. *)
Fixpoint for_count {S} (count lo : nat) (body : nat → S → outcome S) (s : S)
  : outcome S :=
  match count with
  | O => Ret s
  | Datatypes.S c => s' ← body lo s; for_count c (Datatypes.S lo) body s'
  end.

(** [for (size_t k = lo; k < hi; ++k) body]; the bound is one of [rows()],
    [columns()], [size()], which no loop body of the repository changes. *)
Definition for_range {S} (lo hi : nat) (body : nat → S → outcome S) (s : S)
  : outcome S :=
  for_count (hi - lo) lo body s.

(** ** Machine integers *)

Definition size_max : Z := (2 ^ 64)%Z.

(** Reduction to [size_t]. *)
Definition to_size (z : Z) : Z := (z mod size_max)%Z.

(** Conversion to [int]. *)
Definition to_int (z : Z) : Z :=
  let r := (z mod 2 ^ 32)%Z in
  if (r <? 2 ^ 31)%Z then r else (r - 2 ^ 32)%Z.

(** ** The numeric type parameter *)

(** What the templates use of [T]: [T(0)] (also [T()]), [1], the four
    operations, unary minus and [==]. *)
Class Numeric (T : Type) := {
  zero : T;
  one : T;
  add : T → T → T;
  sub : T → T → T;
  mul : T → T → T;
  div : T → T → T;
  neg : T → T;
  eqb : T → T → bool;
}.

(** The laws of arithmetic that the elimination proofs use: [==] decides
    equality, [x / 1 = x], [x * 0 = 0] and [-0 = 0].  Every field has
    them. *)
Class NumericLaws (T : Type) `{Numeric T} := {
  eqb_eq : ∀ x y : T, eqb x y = true ↔ x = y;
  div_one : ∀ x : T, div x one = x;
  mul_zero : ∀ x : T, mul x zero = zero;
  neg_zero : neg zero = zero;
}.

(** ** matrix.h *)

(** [std::vector<std::vector<T>> data] *)
Record matrix (T : Type) := Matrix { data : list (list T) }.
Arguments Matrix {T} data.
Arguments data {T} m.

Section matrix_ops.
Context {T : Type} `{Numeric T}.

(** [matrix(Rows, Columns, t)] *)
Definition matrix_fill (Rows Columns : nat) (t : T) : matrix T :=
  Matrix (replicate Rows (replicate Columns t)).

(** [matrix(Rows, Columns)]: every entry is [T()]. *)
Definition matrix_new (Rows Columns : nat) : matrix T :=
  matrix_fill Rows Columns zero.

Definition rows (m : matrix T) : nat :=
  match data m with
  | [] => 0
  | _ => length (data m)
  end.

Definition columns (m : matrix T) : nat :=
  match data m with
  | [] => 0
  | r :: _ => length r
  end.

(** [m(row, column)] read: [data[row][column]], unchecked in the source. *)
Definition mat_at (m : matrix T) (row column : nat) : outcome T :=
  r ← vec_get (data m) row;
  vec_get r column.

(** [m(row, column) = t]. *)
Definition mat_assign (m : matrix T) (row column : nat) (t : T)
  : outcome (matrix T) :=
  r ← vec_get (data m) row;
  r' ← vec_set r column t;
  Ret (Matrix (<[row := r']> (data m))).

(** [std::swap(m(i,k), m(j,k))] *)
Definition mat_swap (m : matrix T) (i j k : nat) : outcome (matrix T) :=
  a ← mat_at m i k;
  b ← mat_at m j k;
  m ← mat_assign m i k b;
  mat_assign m j k a.

(** The copy constructor: one [push_back] per entry, read with [m(i,j)]. *)
Definition matrix_copy (m : matrix T) : outcome (matrix T) :=
  d ← for_range 0 (rows m) (λ i d,
         r ← for_range 0 (columns m) (λ j r,
                x ← mat_at m i j;
                Ret (r ++ [x])) [];
         Ret (d ++ [r])) [];
  Ret (Matrix d).

Definition identity (N : nat) : outcome (matrix T) :=
  let ret := matrix_fill N N zero in
  for_range 0 N (λ i ret, mat_assign ret i i one) ret.

(** [matrix<T> ret;] in [operator+] and unary [operator-]: the class
    declares no constructor without arguments, so the declaration is read
    as the matrix whose [data] is empty, the only state a [matrix] can be
    in before a constructor body has run. *)
Definition matrix_default : matrix T := Matrix [].

(** [operator+]; [ret[i][j]] and [m[i][j]] are read as [data[i][j]] of
    the respective matrix (the class has no [operator[]]). *)
Definition matrix_add (this m : matrix T) : outcome (matrix T) :=
  _ ← assert (bool_decide (rows this = rows m)
              && bool_decide (columns this = columns m));
  let ret := matrix_default in
  for_range 0 (rows this) (λ i ret,
    for_range 0 (columns this) (λ j ret,
      a ← mat_at this i j;
      b ← mat_at m i j;
      mat_assign ret i j (add a b)) ret) ret.

(** Unary [operator-]. *)
Definition matrix_neg (this : matrix T) : outcome (matrix T) :=
  let ret := matrix_default in
  for_range 0 (rows this) (λ i ret,
    for_range 0 (columns this) (λ j ret,
      a ← mat_at this i j;
      mat_assign ret i j (neg a)) ret) ret.

(** Binary [operator-]: [this] plus the negation of [m]. *)
Definition matrix_sub (this m : matrix T) : outcome (matrix T) :=
  m' ← matrix_neg m;
  matrix_add this m'.

(** The matrix product [operator*], loops in the order i, k, j. *)
Definition matrix_mul (this m : matrix T) : outcome (matrix T) :=
  _ ← assert (bool_decide (columns this = rows m));
  let ret := matrix_fill (rows this) (columns m) zero in
  for_range 0 (rows this) (λ i ret,
    for_range 0 (columns this) (λ k ret,
      for_range 0 (columns m) (λ j ret,
        r ← mat_at ret i j;
        a ← mat_at this i k;
        b ← mat_at m k j;
        mat_assign ret i j (add r (mul a b))) ret) ret) ret.

(** [for(j = i; j < rows() && tmp(j,i) == T1(0); ++j);] with
    [remaining = rows() - j]; the result is the final [j]. *)
Fixpoint pivot_scan (tmp : matrix T) (i remaining j : nat) : outcome nat :=
  match remaining with
  | O => Ret j
  | S remaining =>
      x ← mat_at tmp j i;
      if eqb x zero then pivot_scan tmp i remaining (S j) else Ret j
  end.

(** Lines 250-255 of [inverse]: the swap of rows [i] and [j], from column
    [i] on, in [tmp] and in [ret]. *)
Definition inverse_swap (this : matrix T) (i j : nat) (st : matrix T * matrix T)
  : outcome (matrix T * matrix T) :=
  for_range i (columns this) (λ k '(tmp, ret),
    tmp ← mat_swap tmp i j k;
    ret ← mat_swap ret i j k;
    Ret (tmp, ret)) st.

(** Lines 256-262: row [i] divided by the pivot. *)
Definition inverse_normalise (this : matrix T) (i : nat) (st : matrix T * matrix T)
  : outcome (matrix T * matrix T) :=
  '(tmp, ret) ← for_range 0 (columns this) (λ j '(tmp, ret),
    if bool_decide (j = i) then Ret (tmp, ret) else
    a ← mat_at tmp i j;
    p ← mat_at tmp i i;
    tmp ← mat_assign tmp i j (div a p);
    b ← mat_at ret i j;
    p ← mat_at tmp i i;
    ret ← mat_assign ret i j (div b p);
    Ret (tmp, ret)) st;
  b ← mat_at ret i i;
  p ← mat_at tmp i i;
  ret ← mat_assign ret i i (div b p);
  tmp ← mat_assign tmp i i one;
  Ret (tmp, ret).

(** Lines 263-270: column [i] cleared in every other row. *)
Definition inverse_eliminate (this : matrix T) (i : nat) (st : matrix T * matrix T)
  : outcome (matrix T * matrix T) :=
  for_range 0 (rows this) (λ j '(tmp, ret),
    if bool_decide (j = i) then Ret (tmp, ret) else
    entry ← mat_at tmp j i;
    for_range 0 (columns this) (λ k '(tmp, ret),
      a ← mat_at tmp j k;
      b ← mat_at tmp i k;
      p ← mat_at tmp i i;
      tmp ← mat_assign tmp j k (sub a (mul (div b p) entry));
      c ← mat_at ret j k;
      d ← mat_at ret i k;
      p ← mat_at tmp i i;
      ret ← mat_assign ret j k (sub c (mul (div d p) entry));
      Ret (tmp, ret)) (tmp, ret)) st.

(** One turn of the outer loop of [inverse]. *)
Definition inverse_step (this : matrix T) (i : nat) (st : matrix T * matrix T)
  : outcome (matrix T * matrix T) :=
  j ← pivot_scan st.1 i (rows this - i) i;
  if bool_decide (j = rows this) then Throw degenerate_matrix_error else
  st ← (if bool_decide (i ≠ j) then inverse_swap this i j st else Ret st);
  st ← inverse_normalise this i st;
  inverse_eliminate this i st.

(** The state of [inverse] at the head of the outer loop with index [i]. *)
Definition inverse_upto (i : nat) (this : matrix T)
  : outcome (matrix T * matrix T) :=
  _ ← assert (bool_decide (rows this = columns this));
  tmp ← matrix_copy this;
  ret ← identity (rows this);
  for_range 0 i (inverse_step this) (tmp, ret).

Definition inverse (this : matrix T) : outcome (matrix T) :=
  _ ← assert (bool_decide (rows this = columns this));
  tmp ← matrix_copy this;
  ret ← identity (rows this);
  st ← for_range 0 (rows this) (inverse_step this) (tmp, ret);
  Ret st.2.

(** Lines 298-303 of [determinant]. *)
Definition determinant_swap (this : matrix T) (i j : nat) (tmp : matrix T)
  : outcome (matrix T) :=
  for_range i (columns this) (λ k tmp, mat_swap tmp i j k) tmp.

(** Lines 304-309. *)
Definition determinant_eliminate (this : matrix T) (i : nat) (tmp : matrix T)
  : outcome (matrix T) :=
  for_range (i + 1) (rows this) (λ j tmp,
    entry ← mat_at tmp j i;
    for_range i (columns this) (λ k tmp,
      a ← mat_at tmp j k;
      b ← mat_at tmp i k;
      p ← mat_at tmp i i;
      mat_assign tmp j k (sub a (mul (div b p) entry))) tmp) tmp.

(** Lines 298-309: the body of the outer loop once the pivot row [j] is
    known; a swap flips [b]. *)
Definition determinant_turn (this : matrix T) (i j : nat) (tmp : matrix T) (b : bool)
  : outcome (matrix T * bool) :=
  '(tmp, b) ← (if bool_decide (i ≠ j)
               then tmp ← determinant_swap this i j tmp; Ret (tmp, xorb b true)
               else Ret (tmp, b));
  tmp ← determinant_eliminate this i tmp;
  Ret (tmp, b).

(** The outer loop of [determinant], [for(i = 0; i < rows() - 1; ++i)],
    with the subtraction in [size_t].  [inr t] is [return t] from inside
    the loop, [inl] the state when the loop condition fails. *)
Fixpoint determinant_loop (this : matrix T) (fuel i : nat) (tmp : matrix T) (b : bool)
  : outcome (matrix T * bool + T) :=
  match fuel with
  | O => OutOfFuel
  | S fuel =>
      if (Z.of_nat i <? to_size (Z.of_nat (rows this) - 1))%Z then
        j ← pivot_scan tmp i (rows this - i) i;
        if bool_decide (j = rows this) then Ret (inr zero) else
        st ← determinant_turn this i j tmp b;
        determinant_loop this fuel (S i) st.1 st.2
      else Ret (inl (tmp, b))
  end.

(** Lines 312-315: the product of the diagonal, negated when [b]. *)
Definition determinant_product (this tmp : matrix T) (b : bool) : outcome T :=
  let res := one in
  res ← for_range 0 (rows this) (λ i (res : T),
           d ← mat_at tmp i i;
           Ret (mul res d)) res;
  Ret (if b then neg res else res).

(** What [determinant] returns once the outer loop is left. *)
Definition determinant_leave (this : matrix T) (r : matrix T * bool + T) : outcome T :=
  match r with
  | inr t => Ret t
  | inl (tmp, b) => determinant_product this tmp b
  end.

(** The loop leaves by [return] or by its condition within [rows()]
    turns, the condition being tested once more than the body runs. *)
Definition determinant (this : matrix T) : outcome T :=
  _ ← assert (bool_decide (rows this = columns this));
  tmp ← matrix_copy this;
  let b := false in
  r ← determinant_loop this (S (rows this)) 0 tmp b;
  determinant_leave this r.

End matrix_ops.

(** ** Exact rationals as the numeric type *)

(** [Qc] stands for [long double] wherever a statement needs numbers: on
    the inputs used below every intermediate value is a small dyadic or a
    third, and no division has a zero divisor. *)
#[global] Instance Qc_numeric : Numeric Qc := {|
  zero := 0%Qc;
  one := 1%Qc;
  add := Qcplus;
  sub := Qcminus;
  mul := Qcmult;
  div := Qcdiv;
  neg := Qcopp;
  eqb := λ x y, bool_decide (x = y);
|}.

(** An integer literal as a rational. *)
Definition q (z : Z) : Qc := Q2Qc (inject_Z z).

(** A fraction as a rational. *)
Definition qf (n : Z) (d : positive) : Qc := Q2Qc (Qmake n d).

Definition qmatrix (l : list (list Z)) : matrix Qc :=
  Matrix (map (map q) l).

(** ** fft.h *)

(** What [FFT] uses of [std::complex<long double>]: the value-initialised
    element of [resize], [+], [-], [*] and [a /= P.size()]. *)
Class Complex (C : Type) := {
  czero : C;
  cadd : C → C → C;
  csub : C → C → C;
  cmul : C → C → C;
  cdiv_size : C → nat → C;
}.

(** [while(j >= b) { j -= b; b >>= 1; }] with [size_t j] and [int b]: the
    comparison and the subtraction convert [b] to [size_t].  [b] has 32
    bits, so a run that is still going after 64 turns has reached [b = 0]
    and never ends. *)
Fixpoint carry (fuel : nat) (j b : Z) : outcome (Z * Z) :=
  match fuel with
  | O => OutOfFuel
  | S fuel =>
      if (to_size b <=? j)%Z
      then carry fuel (to_size (j - to_size b)) (Z.shiftr b 1)
      else Ret (j, b)
  end.

(** Lines 34-41: the permutation loop, on [P] already resized. *)
Definition permute {A} (P : list A) : outcome (list A) :=
  st ← for_range 1 (length P) (λ i '(P, j),
          let b := to_int (Z.shiftr (Z.of_nat (length P)) 1) in
          '(j, _) ← carry 64 j b;
          if (Z.of_nat i <? j)%Z
          then P ← vec_swap P i (Z.to_nat j); Ret (P, j)
          else Ret (P, j)) (P, 0%Z);
  Ret st.1.

(** [while(length < P.size()) length <<= 1;] in [size_t]: after 64 shifts
    [length] is 0 for good. *)
Fixpoint padded_length (fuel : nat) (length : Z) (size : nat) : outcome Z :=
  match fuel with
  | O => OutOfFuel
  | S fuel =>
      if (length <? Z.of_nat size)%Z
      then padded_length fuel (to_size (Z.shiftl length 1)) size
      else Ret length
  end.

Section fft.
Context {C : Type} `{Complex C}.

(** [unit_root inv N i] is [complex(cos(theta * i), sin(theta * i))] for
    [theta = inv * 2 * M_PI / N]. *)
Context (unit_root : Z → nat → nat → C).

(** Lines 46-49: the body of [if(roots.size() != P.size() / 2)]. *)
Definition fill_roots (inv : Z) (N : nat) : outcome (list C) :=
  let roots := resize N czero [] in
  for_range 0 (N / 2) (λ i roots, vec_set roots i (unit_root inv N i)) roots.

(** Lines 56-59; [layer * k] is computed in [size_t]. *)
Definition butterfly (roots : list C) (layer : Z) (i j k : nat) (P : list C)
  : outcome (list C) :=
  u ← vec_get P (j + k);
  w ← vec_get P (j + k + i / 2);
  r ← vec_get roots (Z.to_nat (to_size (layer * Z.of_nat k)));
  let v := cmul w r in
  P ← vec_set P (j + k) (cadd u v);
  vec_set P (j + k + i / 2) (csub u v).

(** [for(size_t j = 0; j < P.size(); j += i)]; [j + i] stays below
    [2 ^ 64] for the same reason as [i] in [stages]. *)
Fixpoint blocks (fuel : nat) (roots : list C) (layer : Z) (i j : nat)
  (P : list C) : outcome (list C) :=
  match fuel with
  | O => OutOfFuel
  | S fuel =>
      if bool_decide (j < length P) then
        P ← for_range 0 (i / 2) (λ k P, butterfly roots layer i j k P) P;
        blocks fuel roots layer i (j + i) P
      else Ret P
  end.

(** [for(size_t i = 2; i <= P.size(); i <<= 1)]; a vector has fewer than
    [2 ^ 63] elements, so the shift does not wrap. *)
Fixpoint stages (fuel : nat) (roots : list C) (i : nat) (P : list C)
  : outcome (list C) :=
  match fuel with
  | O => OutOfFuel
  | S fuel =>
      if bool_decide (i ≤ length P) then
        let layer := to_int (Z.of_nat (length P / i)) in
        P ← blocks (S (length P)) roots layer i 0 P;
        stages fuel roots (i * 2) P
      else Ret P
  end.

(** [FFT(P, inv)]; the [static] vector [roots] is passed in and handed
    back next to the overwritten [P]. *)
Definition FFT (P : list C) (inv : Z) (roots : list C)
  : outcome (list C * list C) :=
  length ← padded_length 65 1 (length P);
  let P := resize (Z.to_nat length) czero P in
  P ← permute P;
  roots ← (if bool_decide (List.length roots ≠ List.length P / 2)
           then fill_roots inv (List.length P)
           else Ret roots);
  P ← stages 64 roots 2 P;
  let P := if bool_decide (inv = (-1)%Z)
           then (λ a, cdiv_size a (List.length P)) <$> P
           else P in
  Ret (P, roots).

End fft.

(** ** Gaussian rationals as the complex type *)

#[global] Instance gauss_complex : Complex (Qc * Qc) := {|
  czero := (0%Qc, 0%Qc);
  cadd x y := ((x.1 + y.1)%Qc, (x.2 + y.2)%Qc);
  csub x y := ((x.1 - y.1)%Qc, (x.2 - y.2)%Qc);
  cmul x y := ((x.1 * y.1 - x.2 * y.2)%Qc, (x.1 * y.2 + x.2 * y.1)%Qc);
  cdiv_size x n := ((x.1 / q (Z.of_nat n))%Qc, (x.2 / q (Z.of_nat n))%Qc);
|}.

(** The roots of unity at the quarter turns, where cosine and sine are
    0, 1 or -1: [inv * 2 * pi * i / N] with [N] dividing [4 * i].  At any
    other angle the value is not rational and [quarter_root] gives [None]. *)
Definition quarter_root (inv : Z) (N i : nat) : option (Qc * Qc) :=
  if bool_decide ((4 * i) `mod` N = 0) then
    match ((inv * Z.of_nat (4 * i / N)) mod 4)%Z with
    | 0%Z => Some (q 1, q 0)
    | 1%Z => Some (q 0, q 1)
    | 2%Z => Some (q (-1), q 0)
    | _ => Some (q 0, q (-1))
    end
  else None.

(** A root table that is exact at the quarter turns, the only angles a
    transform of length 1, 2 or 4 asks for; elsewhere it holds zero. *)
Definition exact_roots (inv : Z) (N i : nat) : Qc * Qc :=
  default czero (quarter_root inv N i).

Definition gq (re im : Z) : Qc * Qc := (q re, q im).

(** ** gauss.h *)

Section gauss.
Context {T : Type} `{Numeric T}.

(** Lines 29-39: the matrices [m] and [y] as they stand before the
    [return]. *)
Definition gauss_system (A : list (list T)) (Y : list T)
  : outcome (matrix T * matrix T) :=
  let m := matrix_new (length A) (length A) in
  m ← for_range 0 (length A) (λ i m,
        a ← vec_get A i;
        for_range 0 (length a) (λ j m,
          x ← vec_get a j;
          mat_assign m i j x) m) m;
  let y := matrix_new 1 (length A) in
  m ← for_range 0 (length Y) (λ i m,
        x ← vec_get Y i;
        mat_assign m 0 i x) m;
  Ret (m, y).

(** [gauss(A, Y)].  The source returns the product [m.inverse() * y], a
    [matrix], where a [std::vector] is declared; the product is what the
    embedding returns. *)
Definition gauss (A : list (list T)) (Y : list T) : outcome (matrix T) :=
  _ ← assert (bool_decide (length A = length Y));
  _ ← assert (forallb (λ a, bool_decide (length a ≤ length A)) A);
  st ← gauss_system A Y;
  inv ← inverse st.1;
  matrix_mul inv st.2.

End gauss.

(** ** Vocabulary of the statements *)

(** [returns m Q]: the call returns, with a value that satisfies [Q]. *)
Definition returns {A} (m : outcome A) (Q : A → Prop) : Prop :=
  ∃ a, m = Ret a ∧ Q a.

Section matrix_vocabulary.
Context {T : Type} `{Numeric T}.

(** An [n] by [n] matrix: [n] rows of [n] entries. *)
Definition square (n : nat) (m : matrix T) : Prop :=
  length (data m) = n ∧ Forall (λ r, length r = n) (data m).

(** The entry at [(r, c)], for statements (zero outside the matrix). *)
Definition entry (m : matrix T) (r c : nat) : T :=
  default zero (row ← data m !! r; row !! c).

(** The row that stands at [r] once rows [i] and [j] have changed places. *)
Definition swapped (i j r : nat) : nat :=
  if decide (r = i) then j else if decide (r = j) then i else r.




(** The matrix with the entries [f r c], [n] by [n]. *)
Definition tabulate (n : nat) (f : nat → nat → T) : matrix T :=
  Matrix ((λ r, f r <$> seq 0 n) <$> seq 0 n).

(** The elementwise sum, as [operator+] documents it. *)
Definition elementwise (f : T → T → T) (a b : matrix T) : matrix T :=
  Matrix (zip_with (zip_with f) (data a) (data b)).

End matrix_vocabulary.

(** [bit_reverse bits i]: the number whose [bits] low bits are those of [i]
    in reverse order. *)
Fixpoint bit_reverse (bits i : nat) : nat :=
  match bits with
  | O => 0
  | S bits => (i `mod` 2) * 2 ^ bits + bit_reverse bits (i / 2)
  end.

(** [Q] is [P] in bit-reversed order: what stood at [i] stands at the
    reversal of [i]. *)
Definition bit_reversed_order {A} (bits : nat) (P Q : list A) : Prop :=
  length P = 2 ^ bits ∧ length Q = 2 ^ bits ∧
  ∀ i, i < 2 ^ bits → Q !! bit_reverse bits i = P !! i.

Section fft_vocabulary.
Context {C : Type} `{Complex C}.
Context (unit_root : Z → nat → nat → C).

(** The states the [static] vector [roots] can be in: empty when the
    process starts, then whatever a refill has left. *)
Definition cache_state (roots : list C) : Prop :=
  roots = [] ∨ ∃ inv N, fill_roots unit_root inv N = Ret roots.

End fft_vocabulary.

(** ** Deciding equalities between results *)

#[global] Instance exn_eq_dec : EqDecision exn.
Proof. solve_decision. Defined.

#[global] Instance outcome_eq_dec {A} `{EqDecision A} : EqDecision (outcome A).
Proof. solve_decision. Defined.

#[global] Instance matrix_eq_dec {T} `{EqDecision T} : EqDecision (matrix T).
Proof. solve_decision. Defined.

(** Closed equalities and disequalities are settled by evaluation. *)
Ltac evaluate := apply (bool_decide_unpack _); vm_compute; exact I.

(** ** A numeric type with overflow *)

(** What [long double] adds to exact arithmetic when a value leaves its
    range: the finite values, written as the exact rationals they are, the
    two infinities and the value that is not a number.  A result whose
    magnitude reaches [2 ^ 16384], the first power of two beyond the finite
    values of the 80-bit format, is infinite; infinity times zero, the
    difference of equal infinities and zero or infinity divided by itself
    are not numbers, and [==] with such a value is false.  Rounding,
    underflow and the sign of zero are left out: the type is used on powers
    of two, 0 and 1 only, where no result is rounded. *)
Inductive xnum : Type :=
  | XFin (x : Qc)
  | XInf (negative : bool)
  | XNaN.

Definition qlt (x y : Qc) : bool :=
  match (x ?= y)%Qc with
  | Lt => true
  | _ => false
  end.

Definition xmax : Qc := q (2 ^ 16384).

(** The value of an exact result: itself within the range, an infinity of
    its sign beyond. *)
Definition xfin (x : Qc) : xnum :=
  if qlt (- xmax) x && qlt x xmax then XFin x else XInf (qlt x 0).

Definition xneg (a : xnum) : xnum :=
  match a with
  | XFin x => XFin (- x)
  | XInf s => XInf (negb s)
  | XNaN => XNaN
  end.

Definition xadd (a b : xnum) : xnum :=
  match a, b with
  | XFin x, XFin y => xfin (x + y)
  | XFin _, XInf s | XInf s, XFin _ => XInf s
  | XInf s, XInf s' => if Bool.eqb s s' then XInf s else XNaN
  | _, _ => XNaN
  end.

Definition xsub (a b : xnum) : xnum := xadd a (xneg b).

Definition xmul (a b : xnum) : xnum :=
  match a, b with
  | XFin x, XFin y => xfin (x * y)
  | XFin x, XInf s | XInf s, XFin x =>
      if bool_decide (x = 0%Qc) then XNaN else XInf (xorb s (qlt x 0))
  | XInf s, XInf s' => XInf (xorb s s')
  | _, _ => XNaN
  end.

Definition xdiv (a b : xnum) : xnum :=
  match a, b with
  | XFin x, XFin y =>
      if bool_decide (y = 0%Qc)
      then if bool_decide (x = 0%Qc) then XNaN else XInf (qlt x 0)
      else xfin (x / y)
  | XFin _, XInf _ => XFin 0
  | XInf s, XFin y => XInf (xorb s (qlt y 0))
  | _, _ => XNaN
  end.

Definition xeqb (a b : xnum) : bool :=
  match a, b with
  | XFin x, XFin y => bool_decide (x = y)
  | XInf s, XInf s' => Bool.eqb s s'
  | _, _ => false
  end.

#[global] Instance xnum_numeric : Numeric xnum | 100 := {|
  zero := XFin 0;
  one := XFin 1;
  add := xadd;
  sub := xsub;
  mul := xmul;
  div := xdiv;
  neg := xneg;
  eqb := xeqb;
|}.

#[global] Instance xnum_eq_dec : EqDecision xnum.
Proof. solve_decision. Defined.


(** ** matrix.h: the remaining operations *)

Section matrix_more.
Context {T : Type} `{Numeric T}.

(** [operator*(const T t)]: a copy, every entry multiplied by [t]. *)
Definition matrix_scale (this : matrix T) (t : T) : outcome (matrix T) :=
  ret ← matrix_copy this;
  for_range 0 (rows this) (λ i ret,
    for_range 0 (columns this) (λ j ret,
      a ← mat_at ret i j;
      mat_assign ret i j (mul a t)) ret) ret.

(** [transpose()] *)
Definition transpose (this : matrix T) : outcome (matrix T) :=
  let ret := matrix_new (columns this) (rows this) in
  for_range 0 (rows this) (λ i ret,
    for_range 0 (columns this) (λ j ret,
      a ← mat_at this i j;
      mat_assign ret j i a) ret) ret.

(** [operator<<]: the stream is the text written so far, [show] the
    formatting of one [T]; [m.columns() - 1] is computed in [size_t]. *)
Definition print (show : T → string) (out : string) (m : matrix T)
  : outcome string :=
  for_range 0 (rows m) (λ i out,
    out ← for_range 0 (columns m) (λ j out,
             x ← mat_at m i j;
             let out := out +:+ show x in
             Ret (if (Z.of_nat j <? to_size (Z.of_nat (columns m) - 1))%Z
                  then out +:+ " " else out)) out;
    Ret (out +:+ String (Ascii.ascii_of_nat 10) EmptyString)) out.

End matrix_more.

(** ** vector.h *)

Module vector_h.

Record vector (T : Type) := Vector { x : T; y : T; z : T }.
Arguments Vector {T} x y z.
Arguments x {T} v.
Arguments y {T} v.
Arguments z {T} v.

Section vector_ops.
Context {T : Type} `{Numeric T}.

(** [operator+] *)
Definition vadd (u v : vector T) : vector T :=
  Vector (add (x u) (x v)) (add (y u) (y v)) (add (z u) (z v)).

(** Unary [operator-] *)
Definition vneg (u : vector T) : vector T :=
  Vector (neg (x u)) (neg (y u)) (neg (z u)).

(** Binary [operator-]: the sum with the negation. *)
Definition vsub (u v : vector T) : vector T := vadd u (vneg v).

(** [operator*(const T &t)] *)
Definition vscale (u : vector T) (t : T) : vector T :=
  Vector (mul t (x u)) (mul t (y u)) (mul t (z u)).

(** [operator*(const vector &v)], the dot product. *)
Definition dot (u v : vector T) : T :=
  add (add (mul (x u) (x v)) (mul (y u) (y v))) (mul (z u) (z v)).

(** [operator^], the cross product. *)
Definition cross (u v : vector T) : vector T :=
  Vector (sub (mul (y u) (z v)) (mul (z u) (y v)))
         (sub (mul (z u) (x v)) (mul (x u) (z v)))
         (sub (mul (x u) (y v)) (mul (y u) (x v))).

Definition magnitude (u : vector T) : T := dot u u.

Definition to_matrix (u : vector T) : outcome (matrix T) :=
  let ret := matrix_new 3 1 in
  ret ← mat_assign ret 0 0 (x u);
  ret ← mat_assign ret 0 1 (y u);
  ret ← mat_assign ret 0 2 (z u);
  Ret ret.

End vector_ops.

End vector_h.

(** ** Vocabulary of the further statements *)

Section matrix_vocabulary_more.
Context {T : Type} `{Numeric T}.

(** A matrix of [r] rows with [c] entries each. *)
Definition rect (r c : nat) (m : matrix T) : Prop :=
  length (data m) = r ∧ Forall (λ row, length row = c) (data m).

(** The sum that [operator*] accumulates in [ret(i,j)] over the first [k]
    columns of the left operand, in the order of the loop. *)
Fixpoint mul_sum (a b : matrix T) (i j k : nat) : T :=
  match k with
  | O => zero
  | S k' => add (mul_sum a b i j k') (mul (entry a i k') (entry b k' j))
  end.

(** One row of [operator<<]: the entries with one space between them. *)
Fixpoint print_row (show : T → string) (row : list T) : string :=
  match row with
  | [] => EmptyString
  | [t] => show t
  | t :: row => show t +:+ " " +:+ print_row show row
  end.

(** The text of a matrix: its rows, each closed by a line feed. *)
Fixpoint print_rows (show : T → string) (d : list (list T)) : string :=
  match d with
  | [] => EmptyString
  | row :: d =>
      print_row show row +:+ String (Ascii.ascii_of_nat 10) EmptyString
      +:+ print_rows show d
  end.

End matrix_vocabulary_more.

(** The 2 by 2 matrix with rows [a, b] and [c, d], and its determinant
    [a d - b c]. *)
Definition M22 {T} (a b c d : T) : matrix T := Matrix [[a; b]; [c; d]].

Definition det22 {T} `{Numeric T} (a b c d : T) : T :=
  sub (mul a d) (mul b c).

(** A formatting of rationals that tells zero from the rest. *)
Definition show_sign (x : Qc) : string :=
  if bool_decide (x = 0%Qc) then "0" else "x".


(** * Proofs *)

(** ** The monad and the loops *)

Lemma bind_Ret {A B} (a : A) (f : A → outcome B) : (Ret a ≫= f) = f a.
Proof. reflexivity. Qed.

Lemma bind_eq_Ret {A B} (m : outcome A) (f : A → outcome B) (b : B) :
  m ≫= f = Ret b → ∃ a, m = Ret a ∧ f a = Ret b.
Proof. destruct m; try discriminate. intros Hf. eauto. Qed.

Lemma returns_Ret {A} (a : A) (Q : A → Prop) : Q a → returns (Ret a) Q.
Proof. intros HQ. exists a. auto. Qed.

Lemma returns_bind {A B} (m : outcome A) (f : A → outcome B) Q R :
  returns m Q → (∀ a, Q a → returns (f a) R) → returns (m ≫= f) R.
Proof. intros (a & -> & Ha) Hf. apply Hf, Ha. Qed.

Lemma returns_weaken {A} (m : outcome A) (Q R : A → Prop) :
  returns m Q → (∀ a, Q a → R a) → returns m R.
Proof. intros (a & -> & Ha) HQR. exists a. auto. Qed.



(** The invariant rule of the counted loop. *)
Lemma for_count_returns {S} (Inv : nat → S → Prop) count lo
    (body : nat → S → outcome S) s :
  Inv lo s →
  (∀ k s, lo ≤ k < lo + count → Inv k s → returns (body k s) (Inv (Datatypes.S k))) →
  returns (for_count count lo body s) (Inv (lo + count)).
Proof.
  revert lo s. induction count as [|count IH]; intros lo s Hs Hbody.
  - simpl. rewrite Nat.add_0_r. apply returns_Ret, Hs.
  - simpl. eapply returns_bind.
    + apply Hbody; [lia | exact Hs].
    + intros s' Hs'. replace (lo + Datatypes.S count) with (Datatypes.S lo + count) by lia.
      apply IH; [exact Hs'|]. intros k s'' Hk. apply Hbody. lia.
Qed.

Lemma for_range_returns {S} (Inv : nat → S → Prop) lo hi
    (body : nat → S → outcome S) s :
  lo ≤ hi →
  Inv lo s →
  (∀ k s, lo ≤ k < hi → Inv k s → returns (body k s) (Inv (Datatypes.S k))) →
  returns (for_range lo hi body s) (Inv hi).
Proof.
  intros Hle Hs Hbody. unfold for_range.
  replace hi with (lo + (hi - lo)) at 2 by lia.
  apply for_count_returns; [exact Hs|].
  intros k s' Hk. apply Hbody. lia.
Qed.

(** A loop over an empty range does nothing. *)
Lemma for_range_empty {S} lo hi (body : nat → S → outcome S) s :
  hi ≤ lo → for_range lo hi body s = Ret s.
Proof. intros Hle. unfold for_range. replace (hi - lo) with 0 by lia. reflexivity. Qed.

(** ** Entries of a square matrix *)

Section matrix_facts.
Context {T : Type} `{Numeric T}.
Implicit Types m tmp ret : matrix T.

Lemma rows_square n m : square n m → rows m = n.
Proof. intros [Hlen _]. unfold rows. destruct (data m); simpl in *; lia. Qed.

Lemma columns_square n m : square n m → columns m = n.
Proof.
  intros [Hlen Hall]. unfold columns. destruct (data m) as [|r d]; simpl in *.
  - lia.
  - inversion Hall; subst. lia.
Qed.

Lemma square_row n m r :
  square n m → r < n → ∃ row, data m !! r = Some row ∧ length row = n.
Proof.
  intros [Hlen Hall] Hr.
  destruct (lookup_lt_is_Some_2 (data m) r) as [row Hrow]; [lia|].
  exists row. split; [exact Hrow|].
  rewrite Forall_lookup in Hall. eapply Hall, Hrow.
Qed.

Lemma mat_at_square n m r c :
  square n m → r < n → c < n → mat_at m r c = Ret (entry m r c).
Proof.
  intros Hsq Hr Hc. destruct (square_row n m r Hsq Hr) as (row & Hrow & Hlen).
  destruct (lookup_lt_is_Some_2 row c) as [x Hx]; [lia|].
  unfold mat_at, entry, vec_get. rewrite Hrow. simpl. rewrite Hx. reflexivity.
Qed.

(** What [mat_assign] leaves, for statements. *)
Lemma mat_assign_square n m r c t :
  square n m → r < n → c < n →
  returns (mat_assign m r c t) (λ m',
    square n m' ∧
    ∀ r' c', entry m' r' c' = if decide (r' = r ∧ c' = c) then t else entry m r' c').
Proof.
  intros Hsq Hr Hc. destruct (square_row n m r Hsq Hr) as (row & Hrow & Hlen).
  unfold mat_assign, vec_get, vec_set. rewrite Hrow. simpl.
  destruct (decide (c < length row)) as [_|]; [|lia]. simpl.
  apply returns_Ret. destruct Hsq as [Hn Hall]. split.
  - split; simpl.
    + rewrite length_insert. exact Hn.
    + apply Forall_insert; [exact Hall|]. rewrite length_insert. exact Hlen.
  - intros r' c'. unfold entry. simpl.
    destruct (decide (r' = r)) as [->|Hne].
    + rewrite list_lookup_insert_eq by lia. simpl.
      destruct (decide (c' = c)) as [->|Hnc].
      * rewrite list_lookup_insert_eq by lia. rewrite decide_True by auto. reflexivity.
      * rewrite list_lookup_insert_ne by auto. rewrite decide_False by tauto.
        rewrite Hrow. reflexivity.
    + rewrite list_lookup_insert_ne by auto. rewrite decide_False by tauto. reflexivity.
Qed.




(** [std::swap(m(i,k), m(j,k))] exchanges two entries of column [k]. *)
Lemma mat_swap_square n m i j k :
  square n m → i < n → j < n → k < n →
  returns (mat_swap m i j k) (λ m',
    square n m' ∧
    ∀ r c, entry m' r c
           = if decide (c = k) then entry m (swapped i j r) c else entry m r c).
Proof.
  intros Hsq Hi Hj Hk. unfold mat_swap.
  rewrite !(mat_at_square n) by assumption. rewrite !bind_Ret.
  eapply returns_bind; [apply (mat_assign_square n); assumption|].
  intros m1 [Hsq1 Hm1]. simpl.
  eapply returns_weaken; [apply (mat_assign_square n); assumption|].
  intros m2 [Hsq2 Hm2]. simpl. split; [exact Hsq2|].
  intros r c. rewrite Hm2, Hm1. unfold swapped.
  repeat case_decide; destruct_and?; subst; try reflexivity; try tauto; try lia.
  all: try (exfalso; tauto).
Qed.

End matrix_facts.

(** ** The loops of the elimination *)

Section elimination_loops.
Context {T : Type} `{Numeric T}.
Implicit Types m tmp ret : matrix T.

(** The copy of a square matrix is the matrix. *)
Lemma matrix_copy_square n m : square n m → matrix_copy m = Ret m.
Proof.
  intros Hsq. unfold matrix_copy.
  rewrite (rows_square n), (columns_square n) by exact Hsq.
  destruct (for_range_returns (λ i d, d = take i (data m)) 0 n
    (λ i d, r ← for_range 0 n (λ j r, x ← mat_at m i j; Ret (r ++ [x])) [];
            Ret (d ++ [r])) []) as (d & Hd & ->).
  - lia.
  - reflexivity.
  - intros i d Hi ->.
    destruct (square_row n m i Hsq) as (row & Hrow & Hlen); [lia|].
    eapply returns_bind.
    + apply (for_range_returns (λ j r, r = take j row)); [lia|reflexivity|].
      intros j r Hj ->. rewrite (mat_at_square n) by (auto; lia). rewrite bind_Ret.
      apply returns_Ret. unfold entry. rewrite Hrow. simpl.
      destruct (lookup_lt_is_Some_2 row j) as [x Hx]; [lia|].
      rewrite Hx. simpl. symmetry. apply take_S_r, Hx.
    + intros r ->. apply returns_Ret. rewrite (take_ge row) by lia.
      symmetry. apply take_S_r, Hrow.
  - rewrite Hd, bind_Ret. destruct Hsq as [Hlen _].
    rewrite take_ge by lia. destruct m; reflexivity.
Qed.

Lemma matrix_fill_square n (t : T) : square n (matrix_fill n n t).
Proof.
  split; simpl.
  - apply length_replicate.
  - apply Forall_replicate, length_replicate.
Qed.

Lemma identity_square n : returns (identity n) (square (T:=T) n).
Proof.
  unfold identity.
  apply (for_range_returns (λ _ ret, square n ret)); [lia|apply matrix_fill_square|].
  intros k ret Hk Hsq.
  eapply returns_weaken; [apply (mat_assign_square n); auto; lia|].
  intros m' [Hm' _]. exact Hm'.
Qed.

(** The swap loop of [determinant]: rows [i] and [j] change places in the
    columns from [i] on. *)
Lemma determinant_swap_square n this i j tmp :
  square n this → square n tmp → i < n → j < n →
  returns (determinant_swap this i j tmp) (λ tmp',
    square n tmp' ∧
    ∀ r c, entry tmp' r c
           = if decide (i ≤ c) then entry tmp (swapped i j r) c else entry tmp r c).
Proof.
  intros Hthis Hsq Hi Hj. unfold determinant_swap.
  rewrite (columns_square n) by exact Hthis.
  eapply returns_weaken.
  - apply (for_range_returns (λ k tmp',
      square n tmp' ∧
      ∀ r c, entry tmp' r c
             = if decide (i ≤ c < k) then entry tmp (swapped i j r) c
               else entry tmp r c)); [lia| |].
    + split; [exact Hsq|]. intros r c. rewrite decide_False by lia. reflexivity.
    + intros k tmp' Hk [Hsq' Hent].
      eapply returns_weaken; [apply (mat_swap_square n); auto; lia|].
      intros m' [Hm' Hswap]. split; [exact Hm'|].
      intros r c. rewrite Hswap, !Hent.
      repeat case_decide; try reflexivity; try lia.
  - intros tmp' [Hsq' Hent]. split; [exact Hsq'|].
    intros r c. rewrite Hent.
    destruct (decide (c < n)) as [Hc|Hc].
    + repeat case_decide; try reflexivity; lia.
    + assert (Hout : ∀ r', entry tmp r' c = zero).
      { intros r'. unfold entry. destruct (data tmp !! r') as [row|] eqn:Hrow; [|reflexivity].
        simpl. destruct Hsq as [_ Hall]. rewrite Forall_lookup in Hall.
        rewrite lookup_ge_None_2; [reflexivity|]. rewrite (Hall _ _ Hrow). lia. }
      rewrite !Hout. repeat case_decide; reflexivity.
Qed.


Lemma entry_outside n m r c : square n m → n ≤ c → entry m r c = zero.
Proof.
  intros [_ Hall] Hc. unfold entry.
  destruct (data m !! r) as [row|] eqn:Hrow; [|reflexivity]. simpl.
  rewrite Forall_lookup in Hall.
  rewrite lookup_ge_None_2; [reflexivity|]. rewrite (Hall _ _ Hrow). lia.
Qed.

(** The swap loop of [inverse]: the same columns, from [i] on, in [tmp]
    and in [ret]; the columns before [i] stay as they are in both. *)
Lemma inverse_swap_square n this i j tmp ret :
  square n this → square n tmp → square n ret → i < n → j < n →
  returns (inverse_swap this i j (tmp, ret)) (λ st,
    square n st.1 ∧ square n st.2 ∧
    (∀ r c, entry st.1 r c
            = if decide (i ≤ c) then entry tmp (swapped i j r) c else entry tmp r c) ∧
    (∀ r c, entry st.2 r c
            = if decide (i ≤ c) then entry ret (swapped i j r) c else entry ret r c)).
Proof.
  intros Hthis Hsq Hsqr Hi Hj. unfold inverse_swap.
  rewrite (columns_square n) by exact Hthis.
  eapply returns_weaken.
  - apply (for_range_returns (λ k st,
      square n st.1 ∧ square n st.2 ∧
      (∀ r c, entry st.1 r c
              = if decide (i ≤ c < k) then entry tmp (swapped i j r) c
                else entry tmp r c) ∧
      (∀ r c, entry st.2 r c
              = if decide (i ≤ c < k) then entry ret (swapped i j r) c
                else entry ret r c))); [lia| |].
    + simpl. split_and!; auto; intros r c; rewrite decide_False by lia; reflexivity.
    + intros k [tmp' ret'] Hk (Hsq' & Hsqr' & Hent & Hentr). simpl in *.
      eapply returns_bind; [apply (mat_swap_square n tmp'); auto; lia|].
      intros tmp2 [Hsq2 Hswap]. simpl.
      eapply returns_bind; [apply (mat_swap_square n ret'); auto; lia|].
      intros ret2 [Hsqr2 Hswapr]. simpl.
      apply returns_Ret. simpl. split_and!; auto.
      * intros r c. rewrite Hswap, !Hent.
        repeat case_decide; try reflexivity; lia.
      * intros r c. rewrite Hswapr, !Hentr.
        repeat case_decide; try reflexivity; lia.
  - intros [tmp' ret'] (Hsq' & Hsqr' & Hent & Hentr). simpl in *.
    split_and!; auto.
    + intros r c. rewrite Hent. destruct (decide (c < n)).
      * repeat case_decide; try reflexivity; lia.
      * rewrite !(entry_outside n tmp) by (auto; lia). repeat case_decide; reflexivity.
    + intros r c. rewrite Hentr. destruct (decide (c < n)).
      * repeat case_decide; try reflexivity; lia.
      * rewrite !(entry_outside n ret) by (auto; lia). repeat case_decide; reflexivity.
Qed.

(** Row [i] divided by the pivot [tmp(i,i)], which is then set to 1. *)
Lemma inverse_normalise_square n this i tmp ret :
  square n this → square n tmp → square n ret → i < n →
  returns (inverse_normalise this i (tmp, ret)) (λ st,
    square n st.1 ∧ square n st.2 ∧
    ∀ r c, c < n →
      entry st.1 r c
      = if decide (r = i)
        then (if decide (c = i) then one else div (entry tmp i c) (entry tmp i i))
        else entry tmp r c).
Proof.
  intros Hthis Hsq Hsqr Hi. unfold inverse_normalise.
  rewrite (columns_square n) by exact Hthis.
  eapply returns_bind.
  - apply (for_range_returns (λ k st,
      square n st.1 ∧ square n st.2 ∧
      ∀ r c, entry st.1 r c
             = if decide (r = i ∧ c < k ∧ c ≠ i)
               then div (entry tmp i c) (entry tmp i i)
               else entry tmp r c)); [lia| |].
    + simpl. split_and!; auto. intros r c. rewrite decide_False by lia. reflexivity.
    + intros k [tmp' ret'] Hk (Hsq' & Hsqr' & Hent). simpl in *.
      case_bool_decide as Hki.
      { apply returns_Ret. simpl. split_and!; auto.
        intros r c. rewrite Hent. repeat case_decide; try reflexivity; lia. }
      rewrite !(mat_at_square n tmp') by (auto; lia). rewrite !bind_Ret.
      eapply returns_bind; [apply (mat_assign_square n tmp'); auto; lia|].
      intros tmp2 [Hsq2 Hent2]. simpl.
      rewrite (mat_at_square n ret') by (auto; lia). rewrite bind_Ret.
      rewrite (mat_at_square n tmp2) by (auto; lia). rewrite bind_Ret.
      eapply returns_bind; [apply (mat_assign_square n ret'); auto; lia|].
      intros ret2 [Hsqr2 _]. simpl.
      apply returns_Ret. simpl. split_and!; auto.
      intros r c. rewrite Hent2, !Hent.
      repeat case_decide; destruct_and?; subst; try reflexivity; try lia.
      all: exfalso; tauto.
  - intros [tmp' ret'] (Hsq' & Hsqr' & Hent). simpl in *.
    rewrite (mat_at_square n ret') by (auto; lia). rewrite bind_Ret.
    rewrite (mat_at_square n tmp') by (auto; lia). rewrite bind_Ret.
    eapply returns_bind; [apply (mat_assign_square n ret'); auto; lia|].
    intros ret2 [Hsqr2 _]. simpl.
    eapply returns_bind; [apply (mat_assign_square n tmp'); auto; lia|].
    intros tmp2 [Hsq2 Hent2]. simpl.
    apply returns_Ret. simpl. split_and!; auto.
    intros r c Hc. rewrite Hent2, Hent.
    repeat case_decide; destruct_and?; subst; try reflexivity; try lia.
    all: exfalso; tauto.
Qed.


(** Column [i] cleared in the other rows: row [r] loses
    [(tmp(i,c) / tmp(i,i)) * tmp(r,i)] in every column [c]. *)
Lemma inverse_eliminate_square n this i tmp ret :
  square n this → square n tmp → square n ret → i < n →
  returns (inverse_eliminate this i (tmp, ret)) (λ st,
    square n st.1 ∧ square n st.2 ∧
    ∀ r c, r < n → c < n →
      entry st.1 r c
      = if decide (r = i) then entry tmp i c
        else sub (entry tmp r c)
                 (mul (div (entry tmp i c) (entry tmp i i)) (entry tmp r i))).
Proof.
  intros Hthis Hsq Hsqr Hi. unfold inverse_eliminate.
  rewrite (rows_square n) by exact Hthis.
  set (F := λ r c, sub (entry tmp r c)
                       (mul (div (entry tmp i c) (entry tmp i i)) (entry tmp r i))).
  eapply returns_weaken.
  - apply (for_range_returns (λ j st,
      square n st.1 ∧ square n st.2 ∧
      ∀ r c, c < n →
        entry st.1 r c
        = if decide (r < j ∧ r ≠ i) then F r c else entry tmp r c)); [lia| |].
    + simpl. split_and!; auto.
      all: intros r c _; rewrite decide_False by lia; reflexivity.
    + intros j [tmp1 ret1] Hj (Hsq1 & Hsqr1 & Hent1). simpl in *.
      case_bool_decide as Hji.
      { apply returns_Ret. simpl. split_and!; auto.
        intros r c Hc. rewrite Hent1 by exact Hc.
        repeat case_decide; try reflexivity; lia. }
      rewrite (mat_at_square n tmp1) by (auto; lia). rewrite bind_Ret.
      rewrite (columns_square n) by exact Hthis.
      eapply returns_weaken.
      * apply (for_range_returns (λ k st,
          square n st.1 ∧ square n st.2 ∧
          ∀ r c, c < n →
            entry st.1 r c
            = if decide (r = j ∧ c < k) then F j c else entry tmp1 r c)); [lia| |].
        -- simpl. split_and!; auto.
           all: intros r c _; rewrite decide_False by lia; reflexivity.
        -- intros k [tmp2 ret2] Hk (Hsq2 & Hsqr2 & Hent2). simpl in *.
           rewrite !(mat_at_square n tmp2) by (auto; lia). rewrite !bind_Ret.
           eapply returns_bind; [apply (mat_assign_square n tmp2); auto; lia|].
           intros tmp3 [Hsq3 Hent3]. simpl.
           rewrite !(mat_at_square n ret2) by (auto; lia). rewrite !bind_Ret.
           rewrite (mat_at_square n tmp3) by (auto; lia). rewrite bind_Ret.
           eapply returns_bind; [apply (mat_assign_square n ret2); auto; lia|].
           intros ret3 [Hsqr3 _]. simpl.
           apply returns_Ret. simpl. split_and!; auto.
           intros r c Hc. rewrite Hent3.
           destruct (decide (r = j ∧ c = k)) as [[-> ->]|Hne].
           ++ rewrite decide_True by lia.
              rewrite !Hent2 by lia. rewrite !decide_False by lia.
              rewrite !Hent1 by lia. rewrite !decide_False by lia.
              reflexivity.
           ++ rewrite Hent2 by exact Hc.
              repeat case_decide; destruct_and?; subst; try reflexivity; try lia.
              all: exfalso; tauto.
      * intros [tmp2 ret2] (Hsq2 & Hsqr2 & Hent2). simpl in *.
        split_and!; auto.
        intros r c Hc. rewrite Hent2 by exact Hc.
        destruct (decide (r = j)) as [->|Hrj].
        -- rewrite decide_True by lia. rewrite decide_True by lia. reflexivity.
        -- rewrite decide_False by lia. rewrite Hent1 by exact Hc.
           repeat case_decide; try reflexivity; lia.
  - intros [tmp' ret'] (Hsq' & Hsqr' & Hent). simpl in *.
    split_and!; auto.
    intros r c Hr Hc. rewrite Hent by exact Hc.
    repeat case_decide; subst; try reflexivity; lia.
Qed.

(** The elimination of [determinant]: the rows below [i], the columns
    from [i] on. *)
Lemma determinant_eliminate_square n this i tmp :
  square n this → square n tmp → i < n →
  returns (determinant_eliminate this i tmp) (λ tmp',
    square n tmp' ∧
    ∀ r c, r < n → c < n →
      entry tmp' r c
      = if decide (i < r ∧ i ≤ c)
        then sub (entry tmp r c)
                 (mul (div (entry tmp i c) (entry tmp i i)) (entry tmp r i))
        else entry tmp r c).
Proof.
  intros Hthis Hsq Hi. unfold determinant_eliminate.
  rewrite (rows_square n) by exact Hthis.
  set (F := λ r c, sub (entry tmp r c)
                       (mul (div (entry tmp i c) (entry tmp i i)) (entry tmp r i))).
  eapply returns_weaken.
  - apply (for_range_returns (λ j tmp1,
      square n tmp1 ∧
      ∀ r c, c < n →
        entry tmp1 r c
        = if decide (i < r < j ∧ i ≤ c) then F r c else entry tmp r c)); [lia| |].
    + split; auto.
      all: intros r c _; rewrite decide_False by lia; reflexivity.
    + intros j tmp1 Hj (Hsq1 & Hent1).
      rewrite (mat_at_square n tmp1) by (auto; lia). rewrite bind_Ret.
      rewrite (columns_square n) by exact Hthis.
      eapply returns_weaken.
      * apply (for_range_returns (λ k tmp2,
          square n tmp2 ∧
          ∀ r c, c < n →
            entry tmp2 r c
            = if decide (r = j ∧ i ≤ c < k) then F j c else entry tmp1 r c));
          [lia| |].
        -- split; auto.
           all: intros r c _; rewrite decide_False by lia; reflexivity.
        -- intros k tmp2 Hk (Hsq2 & Hent2).
           rewrite !(mat_at_square n tmp2) by (auto; lia). rewrite !bind_Ret.
           eapply returns_weaken; [apply (mat_assign_square n tmp2); auto; lia|].
           intros tmp3 [Hsq3 Hent3]. simpl. split; auto.
           intros r c Hc. rewrite Hent3.
           destruct (decide (r = j ∧ c = k)) as [[-> ->]|Hne].
           ++ rewrite decide_True by lia.
              rewrite !Hent2 by lia. rewrite !decide_False by lia.
              rewrite !Hent1 by lia. rewrite !decide_False by lia.
              reflexivity.
           ++ rewrite Hent2 by exact Hc.
              repeat case_decide; destruct_and?; subst; try reflexivity; try lia.
              all: exfalso; tauto.
      * intros tmp2 (Hsq2 & Hent2). simpl. split; auto.
        intros r c Hc. rewrite Hent2 by exact Hc.
        destruct (decide (r = j)) as [->|Hrj].
        -- destruct (decide (i ≤ c)).
           ++ rewrite decide_True by lia. rewrite decide_True by lia. reflexivity.
           ++ rewrite decide_False by lia. rewrite Hent1 by exact Hc.
              rewrite decide_False by lia. rewrite decide_False by lia. reflexivity.
        -- rewrite decide_False by lia. rewrite Hent1 by exact Hc.
           repeat case_decide; try reflexivity; lia.
  - intros tmp' (Hsq' & Hent). split; auto.
    intros r c Hr Hc. rewrite Hent by exact Hc.
    repeat case_decide; subst; try reflexivity; lia.
Qed.

End elimination_loops.

(** ** Inversion and determinant on the same matrix *)

Section degenerate.
Context {T : Type} `{NumericLaws T}.
Implicit Types m tmp ret : matrix T.

Lemma to_size_small z : (0 ≤ z < size_max)%Z → to_size z = z.
Proof. intros Hz. unfold to_size. apply Z.mod_small, Hz. Qed.














End degenerate.

(** ** The rationals are a numeric type with exact arithmetic *)

#[global] Instance Qc_numeric_laws : NumericLaws Qc.
Proof.
  split.
  - intros x y. simpl. apply bool_decide_eq_true.
  - intros x. simpl. apply Qcdiv_right_id.
  - intros x. simpl. apply Qcmult_0_r.
  - reflexivity.
Qed.



(** ** The determinant of the empty matrix *)

Section determinant_empty.
Context {T : Type} `{Numeric T}.

(** C10.  On the matrix with no rows and no columns the bound
    [rows() - 1] of the outer loop of [determinant] wraps around to
    [2 ^ 64 - 1], the loop is entered, the pivot scan over zero rows ends
    at [rows()], and the loop is left by [return T1(0)]: the determinant
    is 0. *)
Theorem determinant_empty_matrix (m : matrix T) :
  rows m = 0 → columns m = 0 →
  to_size (Z.of_nat (rows m) - 1) = (2 ^ 64 - 1)%Z ∧
  pivot_scan m 0 (rows m - 0) 0 = Ret (rows m) ∧
  determinant_loop m (S (rows m)) 0 m false = Ret (inr zero) ∧
  determinant m = Ret zero.
Proof.
  intros Hrows _. destruct m as [[|r d]]; [|discriminate Hrows].
  split_and!; reflexivity.
Qed.

End determinant_empty.

Lemma determinant_empty_matrix_witness :
  to_size (Z.of_nat (rows (matrix_new (T:=Qc) 0 0)) - 1) = (2 ^ 64 - 1)%Z ∧
  pivot_scan (matrix_new (T:=Qc) 0 0) 0 (rows (matrix_new (T:=Qc) 0 0) - 0) 0
  = Ret (rows (matrix_new (T:=Qc) 0 0)) ∧
  determinant_loop (matrix_new 0 0) (S (rows (matrix_new (T:=Qc) 0 0))) 0
    (matrix_new 0 0) false
  = Ret (inr 0%Qc) ∧
  determinant (matrix_new (T:=Qc) 0 0) = Ret 0%Qc.
Proof.
  refine (determinant_empty_matrix (matrix_new (T:=Qc) 0 0) _ _); reflexivity.
Defined.

(** ** The solver *)

(** C1.  On [A = [[4,3],[6,3]]], [Y = [1,1]] the loop that should fill [y]
    writes [Y] over the first row of [m] and leaves [y], one row of two
    zeros, as constructed; the inverse taken is that of [[1,1],[6,3]], and
    the product of the 2 by 2 inverse with the 1 by 2 [y] trips the
    [assert] of [operator*].  With one equation, [2 x = 4], the product
    exists and is [0]. *)
Theorem gauss_example_fails :
  gauss_system [[q 4; q 3]; [q 6; q 3]] [q 1; q 1]
  = Ret (qmatrix [[1; 1]; [6; 3]]%Z, qmatrix [[0; 0]]%Z) ∧
  inverse (qmatrix [[1; 1]; [6; 3]]%Z)
  = Ret (Matrix [[q (-1); qf 1 3]; [q 2; qf (-1) 3]]) ∧
  gauss [[q 4; q 3]; [q 6; q 3]] [q 1; q 1] = AssertFail ∧
  gauss [[q 2]] [q 4] = Ret (qmatrix [[0]]%Z).
Proof. split_and!; evaluate. Qed.

(** ** Sum and difference *)

Section matrix_add_facts.
Context {T : Type} `{Numeric T}.

(** Whatever the operands, once they have an entry the first assignment
    of [operator+] goes to [ret[0][0]] of a matrix without rows. *)
Lemma matrix_add_undefined (this m : matrix T) :
  rows this = rows m → columns this = columns m →
  0 < rows this → 0 < columns this →
  matrix_add this m = Undefined.
Proof.
  intros Hr Hc Hrows Hcols. unfold matrix_add.
  rewrite !bool_decide_true by assumption. simpl assert. rewrite bind_Ret.
  destruct this as [[|[|x r1] d1]]; cbn in Hrows, Hcols; try lia.
  destruct m as [[|[|y r2] d2]]; cbn in Hr, Hc; try discriminate.
  reflexivity.
Qed.

End matrix_add_facts.

(** C7.  [operator+] and the unary [operator-] assign into a matrix that
    was given no dimensions.  On 1 by 1 operands the first assignment is
    out of range, for the sum and for the difference; on operands with one
    row and no column the loops do nothing and the result has no row.  A
    dimension mismatch trips the [assert] of [operator+]; [operator-]
    negates its operand before that. *)
Theorem matrix_add_sub_fail :
  matrix_add (qmatrix [[1]]%Z) (qmatrix [[2]]%Z) = Undefined ∧
  matrix_sub (qmatrix [[1]]%Z) (qmatrix [[2]]%Z) = Undefined ∧
  matrix_add (matrix_new (T:=Qc) 1 0) (matrix_new 1 0) = Ret (Matrix []) ∧
  rows (matrix_new (T:=Qc) 1 0) = 1 ∧ rows (Matrix (T:=Qc) []) = 0 ∧
  matrix_add (qmatrix [[1]]%Z) (qmatrix [[1; 2]; [3; 4]]%Z) = AssertFail ∧
  matrix_sub (qmatrix [[1]]%Z) (qmatrix [[1; 2]; [3; 4]]%Z) = Undefined.
Proof. split_and!; evaluate. Qed.

(** ** The inverse *)

(** C4.  [M = [[1,1,0],[1,1,1],[0,1,0]]] has the inverse
    [[1,0,-1],[0,0,1],[-1,1,0]]; [inverse] returns
    [[2,0,-1],[-1,0,1],[0,1,0]], whose products with [M], on either side,
    are not the identity. *)
Theorem inverse_not_inverse :
  let M := qmatrix [[1; 1; 0]; [1; 1; 1]; [0; 1; 0]]%Z in
  let B := qmatrix [[1; 0; -1]; [0; 0; 1]; [-1; 1; 0]]%Z in
  matrix_mul B M = identity 3 ∧ matrix_mul M B = identity 3 ∧
  inverse M = Ret (qmatrix [[2; 0; -1]; [-1; 0; 1]; [0; 1; 0]]%Z) ∧
  (inv ← inverse M; matrix_mul inv M)
  = Ret (qmatrix [[2; 1; 0]; [-1; 0; 0]; [1; 1; 1]]%Z) ∧
  (inv ← inverse M; matrix_mul M inv)
  = Ret (qmatrix [[1; 0; 0]; [1; 1; 0]; [-1; 0; 1]]%Z) ∧
  (inv ← inverse M; matrix_mul inv M) ≠ identity 3 ∧
  (inv ← inverse M; matrix_mul M inv) ≠ identity 3.
Proof. split_and!; evaluate. Qed.

(** C5.  [inverse] on [[1,1,0],[1,1,1],[0,1,0]] reaches column 1 with the
    pivot in row 2.  The swap exchanges columns 1 and 2 of rows 1 and 2,
    in [tmp] and in [ret]; column 0 of [ret], where row 1 has -1 and row 2
    has 0, stays as it is. *)
Theorem inverse_swap_misses_columns :
  let M := qmatrix [[1; 1; 0]; [1; 1; 1]; [0; 1; 0]]%Z in
  let tmp := qmatrix [[1; 1; 0]; [0; 0; 1]; [0; 1; 0]]%Z in
  let ret := qmatrix [[1; 0; 0]; [-1; 1; 0]; [0; 0; 1]]%Z in
  inverse_upto 1 M = Ret (tmp, ret) ∧
  pivot_scan tmp 1 (rows M - 1) 1 = Ret 2 ∧
  inverse_swap M 1 2 (tmp, ret)
  = Ret (qmatrix [[1; 1; 0]; [0; 1; 0]; [0; 0; 1]]%Z,
         qmatrix [[1; 0; 0]; [-1; 0; 1]; [0; 1; 0]]%Z) ∧
  inverse_swap M 1 2 (tmp, ret)
  ≠ Ret (qmatrix [[1; 1; 0]; [0; 1; 0]; [0; 0; 1]]%Z,
         qmatrix [[1; 0; 0]; [0; 0; 1]; [-1; 1; 0]]%Z).
Proof. split_and!; evaluate. Qed.

(** ** The permutation loop of the transform *)

(** With [j = 0] and [b] positive the loop [while(j >= b)] is not entered. *)
Lemma carry_zero fuel b :
  (0 < b < size_max)%Z → carry (S fuel) 0 b = Ret (0%Z, b).
Proof.
  intros Hb. simpl. unfold to_size. rewrite Z.mod_small by lia.
  destruct (Z.leb_spec b 0); [lia|reflexivity].
Qed.

(** [j] is never raised, so the loop swaps nothing: whatever the buffer,
    it is left as it was. *)
Lemma permute_identity {A} (P : list A) :
  (Z.of_nat (length P) < 2 ^ 32)%Z → permute P = Ret P.
Proof.
  intros Hlen. unfold permute.
  destruct (for_range_returns (λ _ st, st = (P, 0%Z)) 1 (Nat.max 1 (length P))
    (λ i '(P0, j),
       let b := to_int (Z.shiftr (Z.of_nat (length P0)) 1) in
       '(j, _) ← carry 64 j b;
       if (Z.of_nat i <? j)%Z
       then P0 ← vec_swap P0 i (Z.to_nat j); Ret (P0, j)
       else Ret (P0, j)) (P, 0%Z)) as (st & Hst & ->).
  - lia.
  - reflexivity.
  - intros i st Hi ->. cbv zeta.
    assert (Hb : (0 < to_int (Z.shiftr (Z.of_nat (length P)) 1) < size_max)%Z).
    { rewrite Z.shiftr_div_pow2 by lia. change (2 ^ 1)%Z with 2%Z.
      assert (1 ≤ Z.of_nat (length P) / 2 < 2 ^ 31)%Z.
      { split; [apply Z.div_le_lower_bound; lia|apply Z.div_lt_upper_bound; lia]. }
      unfold to_int. rewrite Z.mod_small by lia.
      destruct (Z.ltb_spec (Z.of_nat (length P) / 2) (2 ^ 31)); [|lia].
      unfold size_max. lia. }
    rewrite (carry_zero 63) by exact Hb. rewrite bind_Ret.
    destruct (Z.ltb_spec (Z.of_nat i) 0); [lia|]. apply returns_Ret. reflexivity.
  - unfold for_range in *.
    replace (length P - 1) with (Nat.max 1 (length P) - 1) by lia.
    rewrite Hst. reflexivity.
Qed.

(** C2.  The permutation loop leaves the buffer [0, 1, 2, 3] in the order
    it came in, which is not its bit-reversed order [0, 2, 1, 3]: what
    stood at index 1 has not moved to index 2. *)
Theorem permute_not_bit_reversed :
  permute [0; 1; 2; 3] = Ret [0; 1; 2; 3] ∧
  bit_reversed_order 2 [0; 1; 2; 3] [0; 2; 1; 3] ∧
  ¬ bit_reversed_order 2 [0; 1; 2; 3] [0; 1; 2; 3].
Proof.
  split_and!.
  - reflexivity.
  - split_and!; try reflexivity.
    intros i Hi. change (2 ^ 2) with 4 in Hi.
    destruct i as [|[|[|[|i]]]]; try reflexivity. lia.
  - intros (_ & _ & Hrev). specialize (Hrev 1). cbv in Hrev.
    discriminate Hrev. lia.
Qed.

(** ** The root cache *)

Section fft_facts.
Context {C : Type} `{Complex C}.
Context (unit_root : Z → nat → nat → C).

(** A refill leaves [N] values: the [N / 2] roots, then zeros. *)
Lemma fill_roots_returns inv N :
  returns (fill_roots unit_root inv N) (λ roots,
    length roots = N ∧
    (∀ k, k < N / 2 → roots !! k = Some (unit_root inv N k)) ∧
    (∀ k, N / 2 ≤ k < N → roots !! k = Some czero)).
Proof.
  unfold fill_roots.
  assert (Hhalf : N / 2 ≤ N) by (apply Nat.Div0.div_le_upper_bound; lia).
  eapply returns_weaken.
  - apply (for_range_returns (λ i roots,
      length roots = N ∧
      (∀ k, k < i → roots !! k = Some (unit_root inv N k)) ∧
      (∀ k, i ≤ k < N → roots !! k = Some czero))); [lia| |].
    + unfold resize. rewrite take_nil. simpl. rewrite Nat.sub_0_r.
      split_and!.
      * apply length_replicate.
      * intros k Hk. lia.
      * intros k Hk. apply lookup_replicate_2. lia.
    + intros i roots Hi (Hlen & Hlow & Hhigh). unfold vec_set.
      rewrite decide_True by lia. apply returns_Ret. split_and!.
      * rewrite length_insert. exact Hlen.
      * intros k Hk. destruct (decide (k = i)) as [->|Hne].
        -- apply list_lookup_insert_eq. lia.
        -- rewrite list_lookup_insert_ne by auto. apply Hlow. lia.
      * intros k Hk. rewrite list_lookup_insert_ne by lia. apply Hhigh. lia.
  - intros roots (Hlen & Hlow & Hhigh). auto.
Qed.

(** The transform of a buffer of four values, as a formula. *)
Lemma stages_four r0 r1 rest p0 p1 p2 p3 :
  stages 64 (r0 :: r1 :: rest) 2 [p0; p1; p2; p3]
  = Ret [cadd (cadd p0 (cmul p1 r0)) (cmul (cadd p2 (cmul p3 r0)) r0);
         cadd (csub p0 (cmul p1 r0)) (cmul (csub p2 (cmul p3 r0)) r1);
         csub (cadd p0 (cmul p1 r0)) (cmul (cadd p2 (cmul p3 r0)) r0);
         csub (csub p0 (cmul p1 r0)) (cmul (csub p2 (cmul p3 r0)) r1)].
Proof. reflexivity. Qed.

Lemma FFT_four p0 p1 p2 p3 inv roots :
  FFT unit_root [p0; p1; p2; p3] inv roots
  = (roots ← (if bool_decide (length roots ≠ 2)
              then Ret [unit_root inv 4 0; unit_root inv 4 1; czero; czero]
              else Ret roots);
     P ← stages 64 roots 2 [p0; p1; p2; p3];
     Ret (if bool_decide (inv = (-1)%Z)
          then (λ a, cdiv_size a (length P)) <$> P
          else P, roots)).
Proof. reflexivity. Qed.

(** A cache of two values comes from a refill for the length 2. *)
Lemma cache_state_two roots :
  cache_state unit_root roots → length roots = 2 →
  ∃ inv, roots = [unit_root inv 2 0; czero].
Proof.
  intros [->|(inv & N & Hfill)] Hlen; [discriminate|].
  destruct (fill_roots_returns inv N) as (roots' & Hfill' & HN & _).
  rewrite Hfill in Hfill'. injection Hfill' as <-.
  rewrite Hlen in HN. subst N. exists inv.
  cbv in Hfill. injection Hfill as <-. reflexivity.
Qed.

End fft_facts.

(** ** What a call leaves in the cache *)

(** The rule of the counted loop for a property of the state alone, read
    off a run that has returned. *)
Lemma for_count_Ret_inv {S} (Inv : S → Prop) count lo
    (body : nat → S → outcome S) s s' :
  Inv s →
  (∀ k s s', Inv s → body k s = Ret s' → Inv s') →
  for_count count lo body s = Ret s' → Inv s'.
Proof.
  intros Hs Hbody. revert lo s Hs. induction count as [|count IH]; intros lo s Hs Hrun.
  - simpl in Hrun. injection Hrun as <-. exact Hs.
  - simpl in Hrun. apply bind_eq_Ret in Hrun as (s1 & Hs1 & Hrun).
    eapply IH; [|exact Hrun]. eapply Hbody; eauto.
Qed.

Lemma vec_set_length {A} (v v' : list A) i x :
  vec_set v i x = Ret v' → length v' = length v.
Proof.
  unfold vec_set. case_decide; [|discriminate].
  intros [= <-]. apply length_insert.
Qed.

Lemma vec_swap_length {A} (v v' : list A) i j :
  vec_swap v i j = Ret v' → length v' = length v.
Proof.
  unfold vec_swap. intros Hrun.
  apply bind_eq_Ret in Hrun as (a & _ & Hrun).
  apply bind_eq_Ret in Hrun as (b & _ & Hrun).
  apply bind_eq_Ret in Hrun as (v1 & Hv1 & Hrun).
  apply vec_set_length in Hv1, Hrun. congruence.
Qed.

Lemma permute_length {A} (P P' : list A) :
  permute P = Ret P' → length P' = length P.
Proof.
  unfold permute. intros Hrun. apply bind_eq_Ret in Hrun as ([P1 j1] & Hloop & [= <-]).
  apply (for_count_Ret_inv (λ st, length st.1 = length P)) in Hloop; [exact Hloop|reflexivity|].
  intros k [P2 j2] [P3 j3] Hlen Hbody. cbn [fst] in *.
  apply bind_eq_Ret in Hbody as ([j4 b4] & _ & Hbody).
  destruct (Z.of_nat k <? j4)%Z.
  - apply bind_eq_Ret in Hbody as (P4 & Hswap & [= <- <-]).
    apply vec_swap_length in Hswap. congruence.
  - injection Hbody as <- <-. exact Hlen.
Qed.

Section fft_cache.
Context {C : Type} `{Complex C}.
Context (unit_root : Z → nat → nat → C).

Lemma butterfly_length roots layer i j k (P P' : list C) :
  butterfly roots layer i j k P = Ret P' → length P' = length P.
Proof.
  unfold butterfly. intros Hrun.
  apply bind_eq_Ret in Hrun as (u & _ & Hrun).
  apply bind_eq_Ret in Hrun as (w & _ & Hrun).
  apply bind_eq_Ret in Hrun as (r & _ & Hrun).
  apply bind_eq_Ret in Hrun as (P1 & HP1 & Hrun).
  apply vec_set_length in HP1, Hrun. congruence.
Qed.

Lemma blocks_S fuel roots layer i j (P : list C) :
  blocks (S fuel) roots layer i j P
  = if bool_decide (j < length P) then
      P ← for_range 0 (i / 2) (λ k P, butterfly roots layer i j k P) P;
      blocks fuel roots layer i (j + i) P
    else Ret P.
Proof. reflexivity. Qed.

Lemma stages_S fuel roots i (P : list C) :
  stages (S fuel) roots i P
  = if bool_decide (i ≤ length P) then
      P ← blocks (S (length P)) roots (to_int (Z.of_nat (length P / i))) i 0 P;
      stages fuel roots (i * 2) P
    else Ret P.
Proof. reflexivity. Qed.

Lemma blocks_length fuel roots layer i j (P P' : list C) :
  blocks fuel roots layer i j P = Ret P' → length P' = length P.
Proof.
  revert j P. induction fuel as [|fuel IH]; intros j P Hrun; [discriminate|].
  rewrite blocks_S in Hrun. case_bool_decide.
  - apply bind_eq_Ret in Hrun as (P1 & Hloop & Hrun).
    apply IH in Hrun. rewrite Hrun.
    apply (for_count_Ret_inv (λ P0, length P0 = length P)) in Hloop; [exact Hloop|reflexivity|].
    intros k P2 P3 Hlen Hbody. apply butterfly_length in Hbody. congruence.
  - injection Hrun as <-. reflexivity.
Qed.

Lemma stages_length fuel roots i (P P' : list C) :
  stages fuel roots i P = Ret P' → length P' = length P.
Proof.
  revert i P. induction fuel as [|fuel IH]; intros i P Hrun; [discriminate|].
  rewrite stages_S in Hrun. case_bool_decide.
  - apply bind_eq_Ret in Hrun as (P1 & Hblocks & Hrun).
    apply IH in Hrun. apply blocks_length in Hblocks. congruence.
  - injection Hrun as <-. reflexivity.
Qed.

(** A call that returns has either found a cache of half the length of
    the padded buffer and left it alone, or filled a cache of the full
    length. *)
Lemma FFT_cache_after P inv roots st :
  FFT unit_root P inv roots = Ret st →
  (length roots = length st.1 / 2 ∧ st.2 = roots) ∨
  (length roots ≠ length st.1 / 2 ∧
   fill_roots unit_root inv (length st.1) = Ret st.2 ∧
   length st.2 = length st.1).
Proof.
  unfold FFT. intros Hrun.
  apply bind_eq_Ret in Hrun as (len & _ & Hrun).
  apply bind_eq_Ret in Hrun as (P1 & Hperm & Hrun).
  apply bind_eq_Ret in Hrun as (roots1 & Hroots & Hrun).
  apply bind_eq_Ret in Hrun as (P2 & Hstages & [= <-]).
  apply stages_length in Hstages. cbn [fst snd].
  assert (Hlen : length (if bool_decide (inv = (-1)%Z)
                         then (λ a, cdiv_size a (length P2)) <$> P2 else P2)
                 = length P1).
  { destruct (bool_decide (inv = (-1)%Z)); [rewrite length_fmap|]; exact Hstages. }
  rewrite Hlen. destruct (decide (length roots = length P1 / 2)) as [Heq|Hne].
  - left. rewrite bool_decide_false in Hroots by tauto.
    injection Hroots as <-. auto.
  - right. rewrite bool_decide_true in Hroots by exact Hne.
    split_and!; auto.
    destruct (fill_roots_returns unit_root inv (length P1)) as (r & Hr & Hrl & _).
    rewrite Hroots in Hr. injection Hr as <-. exact Hrl.
Qed.

(** The cache stays in one of its states. *)
Lemma FFT_cache_state P inv roots st :
  cache_state unit_root roots →
  FFT unit_root P inv roots = Ret st →
  cache_state unit_root st.2.
Proof.
  intros Hcache Hrun.
  destruct (FFT_cache_after P inv roots st Hrun) as [[_ ->]|(_ & Hfill & _)].
  - exact Hcache.
  - right. eauto.
Qed.

(** After a call that filled the cache, a call on a buffer of the same
    padded length fills it again. *)
Lemma FFT_same_length_refills P inv roots st P' inv' st' :
  FFT unit_root P inv roots = Ret st →
  length roots ≠ length st.1 / 2 →
  FFT unit_root P' inv' st.2 = Ret st' →
  length st'.1 = length st.1 →
  0 < length st.1 →
  fill_roots unit_root inv' (length st.1) = Ret st'.2.
Proof.
  intros Hrun Hne Hrun' Hsame Hpos.
  destruct (FFT_cache_after P inv roots st Hrun) as [[Heq _]|(_ & _ & Hlen)]; [tauto|].
  destruct (FFT_cache_after P' inv' st.2 st' Hrun') as [[Heq _]|(_ & Hfill & _)].
  - rewrite Hlen, Hsame in Heq.
    assert (length st.1 / 2 < length st.1) by (apply Nat.div_lt; lia). lia.
  - rewrite <- Hsame. exact Hfill.
Qed.

End fft_cache.

(** ** The transform on four values *)

Lemma gauss_cmul_zero_l (x : Qc * Qc) : cmul czero x = czero.
Proof. destruct x as [a b]. unfold cmul, czero. simpl. f_equal; ring. Qed.

Section impulse.
(** Any table of roots whose entry for the angle 0 is 1; the entries for
    the other angles may carry any rounding. *)
Context (unit_root : Z → nat → nat → Qc * Qc).
Hypothesis root_zero : ∀ inv N, unit_root inv N 0 = gq 1 0.

(** The roots that a transform of length 4 works with, whatever state
    the cache was in: 1, then some value. *)
Lemma FFT_four_roots inv roots :
  cache_state unit_root roots →
  ∃ r1 rest,
    (if bool_decide (length roots ≠ 2)
     then Ret [unit_root inv 4 0; unit_root inv 4 1; czero; czero]
     else Ret roots) = Ret (gq 1 0 :: r1 :: rest) ∧
    cache_state unit_root (gq 1 0 :: r1 :: rest).
Proof.
  intros Hcache. case_bool_decide as Hlen.
  - exists (unit_root inv 4 1), [czero; czero]. rewrite root_zero.
    split; [reflexivity|]. right. exists inv, 4. cbv. rewrite root_zero. reflexivity.
  - assert (Hlen' : length roots = 2) by (destruct (decide (length roots = 2)); tauto).
    destruct (cache_state_two unit_root roots Hcache Hlen') as (inv' & Hroots).
    rewrite root_zero in Hroots. subst roots.
    exists czero, []. split; [reflexivity|exact Hcache].
Qed.

Lemma FFT_impulse roots :
  cache_state unit_root roots →
  returns (FFT unit_root [gq 1 0; gq 0 0; gq 0 0; gq 0 0] 1 roots) (λ st,
    st.1 = [gq 1 0; gq 1 0; gq 1 0; gq 1 0] ∧ cache_state unit_root st.2).
Proof.
  intros Hcache. rewrite FFT_four.
  destruct (FFT_four_roots 1 roots Hcache) as (r1 & rest & -> & Hcache').
  rewrite bind_Ret, stages_four, bind_Ret.
  rewrite bool_decide_false by discriminate.
  apply returns_Ret. split; [|exact Hcache']. cbn [fst].
  replace (csub (gq 0 0) (cmul (gq 0 0) (gq 1 0))) with (czero (C:=Qc * Qc))
    by evaluate.
  rewrite gauss_cmul_zero_l. evaluate.
Qed.

Lemma FFT_flat_inverse roots :
  cache_state unit_root roots →
  returns (FFT unit_root [gq 1 0; gq 1 0; gq 1 0; gq 1 0] (-1) roots) (λ st,
    st.1 = [gq 1 0; gq 0 0; gq 0 0; gq 0 0] ∧ cache_state unit_root st.2).
Proof.
  intros Hcache. rewrite FFT_four.
  destruct (FFT_four_roots (-1) roots Hcache) as (r1 & rest & -> & Hcache').
  rewrite bind_Ret, stages_four, bind_Ret.
  rewrite bool_decide_true by reflexivity.
  apply returns_Ret. split; [|exact Hcache']. cbn [fst].
  replace (csub (gq 1 0) (cmul (gq 1 0) (gq 1 0))) with (czero (C:=Qc * Qc))
    by evaluate.
  rewrite gauss_cmul_zero_l. evaluate.
Qed.

(** C9.  In whatever state earlier calls have left the root cache, [FFT]
    forward overwrites [1, 0, 0, 0] with [1, 1, 1, 1], and [FFT] inverse,
    called next on that buffer, overwrites it with [1, 0, 0, 0]; so does
    [FFT] inverse on [1, 1, 1, 1] in any state of the cache.  The
    arithmetic is exact, and of the roots only the one for the angle 0
    is taken to be exact. *)
Theorem FFT_impulse_flat_and_back roots :
  cache_state unit_root roots →
  returns (FFT unit_root [gq 1 0; gq 0 0; gq 0 0; gq 0 0] 1 roots) (λ st,
    st.1 = [gq 1 0; gq 1 0; gq 1 0; gq 1 0] ∧
    returns (FFT unit_root st.1 (-1) st.2) (λ st',
      st'.1 = [gq 1 0; gq 0 0; gq 0 0; gq 0 0])) ∧
  returns (FFT unit_root [gq 1 0; gq 1 0; gq 1 0; gq 1 0] (-1) roots) (λ st,
    st.1 = [gq 1 0; gq 0 0; gq 0 0; gq 0 0]).
Proof.
  intros Hcache. split.
  - eapply returns_weaken; [apply FFT_impulse, Hcache|].
    intros [P roots'] [-> Hcache']. simpl. split; [reflexivity|].
    eapply returns_weaken; [apply FFT_flat_inverse, Hcache'|].
    intros st [Hst _]. exact Hst.
  - eapply returns_weaken; [apply FFT_flat_inverse, Hcache|].
    intros st [Hst _]. exact Hst.
Qed.

End impulse.

Lemma exact_roots_zero inv N : exact_roots inv N 0 = gq 1 0.
Proof.
  unfold exact_roots, quarter_root. rewrite Nat.mul_0_r, Nat.Div0.mod_0_l.
  rewrite bool_decide_true by reflexivity.
  rewrite Nat.Div0.div_0_l, Z.mul_0_r. reflexivity.
Qed.

(** The first two calls of a process, with the roots exact. *)
Lemma FFT_impulse_flat_and_back_witness :
  returns (FFT exact_roots [gq 1 0; gq 0 0; gq 0 0; gq 0 0] 1 []) (λ st,
    st.1 = [gq 1 0; gq 1 0; gq 1 0; gq 1 0] ∧
    returns (FFT exact_roots st.1 (-1) st.2) (λ st',
      st'.1 = [gq 1 0; gq 0 0; gq 0 0; gq 0 0])) ∧
  returns (FFT exact_roots [gq 1 0; gq 1 0; gq 1 0; gq 1 0] (-1) []) (λ st,
    st.1 = [gq 1 0; gq 0 0; gq 0 0; gq 0 0]).
Proof.
  refine (FFT_impulse_flat_and_back exact_roots exact_roots_zero [] _).
  left. reflexivity.
Defined.

(** ** Forward, then inverse *)

(** C3.  From a fresh process, [0, 1, 0] (length 3, padded to 4) goes
    forward to [1, -1, 1, -1], the permutation having moved nothing, and
    comes back as [0, (1 - i) / 2, 0, (1 + i) / 2], not as [0, 1, 0, 0]. *)
Theorem FFT_round_trip_fails :
  FFT exact_roots [gq 0 0; gq 1 0; gq 0 0] 1 []
  = Ret ([gq 1 0; gq (-1) 0; gq 1 0; gq (-1) 0],
         [gq 1 0; gq 0 1; gq 0 0; gq 0 0]) ∧
  ('(P, roots) ← FFT exact_roots [gq 0 0; gq 1 0; gq 0 0] 1 [];
   FFT exact_roots P (-1) roots)
  = Ret ([gq 0 0; (qf 1 2, qf (-1) 2); gq 0 0; (qf 1 2, qf 1 2)],
         [gq 1 0; gq 0 (-1); gq 0 0; gq 0 0]) ∧
  [gq 0 0; (qf 1 2, qf (-1) 2); gq 0 0; (qf 1 2, qf 1 2)]
  ≠ [gq 0 0; gq 1 0; gq 0 0; gq 0 0].
Proof. split_and!; evaluate. Qed.

(** C8.  The first transform of length 4 leaves four values in the cache,
    the two roots and two zeros.  The next transform of length 4, the
    cache being 4 long and not 2, fills it again, for its own direction.
    A cache of length 2 is what a transform of length 2 leaves, and a
    transform of length 4 that finds it works with it: 1 and 0 for the
    roots 1 and i. *)
Theorem FFT_cache_length :
  FFT exact_roots [gq 1 0; gq 0 0; gq 0 0; gq 0 0] 1 []
  = Ret ([gq 1 0; gq 1 0; gq 1 0; gq 1 0],
         [gq 1 0; gq 0 1; gq 0 0; gq 0 0]) ∧
  FFT exact_roots [gq 1 0; gq 1 0; gq 1 0; gq 1 0] (-1)
      [gq 1 0; gq 0 1; gq 0 0; gq 0 0]
  = Ret ([gq 1 0; gq 0 0; gq 0 0; gq 0 0],
         [gq 1 0; gq 0 (-1); gq 0 0; gq 0 0]) ∧
  FFT exact_roots [gq 1 0; gq 2 0] 1 []
  = Ret ([gq 3 0; gq (-1) 0], [gq 1 0; gq 0 0]) ∧
  FFT exact_roots [gq 0 0; gq 0 0; gq 0 0; gq 1 0] 1 [gq 1 0; gq 0 0]
  = Ret ([gq 1 0; gq 0 0; gq (-1) 0; gq 0 0], [gq 1 0; gq 0 0]).
Proof. split_and!; evaluate. Qed.

(** * Further properties *)

(** ** Entries of a rectangular matrix *)

Section rect_facts.
Context {T : Type} `{Numeric T}.
Implicit Types m ret : matrix T.

Lemma rows_rect r c m : rect r c m → rows m = r.
Proof. intros [Hlen _]. unfold rows. destruct (data m); simpl in *; lia. Qed.

Lemma columns_rect r c m : rect r c m → 0 < r → columns m = c.
Proof.
  intros [Hlen Hall] Hr. unfold columns. destruct (data m) as [|row d]; simpl in *.
  - lia.
  - inversion Hall; subst. reflexivity.
Qed.

Lemma rect_row r c m i :
  rect r c m → i < r → ∃ row, data m !! i = Some row ∧ length row = c.
Proof.
  intros [Hlen Hall] Hi.
  destruct (lookup_lt_is_Some_2 (data m) i) as [row Hrow]; [lia|].
  exists row. split; [exact Hrow|].
  rewrite Forall_lookup in Hall. eapply Hall, Hrow.
Qed.

Lemma mat_at_rect r c m i j :
  rect r c m → i < r → j < c → mat_at m i j = Ret (entry m i j).
Proof.
  intros Hm Hi Hj. destruct (rect_row r c m i Hm Hi) as (row & Hrow & Hlen).
  destruct (lookup_lt_is_Some_2 row j) as [t Ht]; [lia|].
  unfold mat_at, entry, vec_get. rewrite Hrow. simpl. rewrite Ht. reflexivity.
Qed.

Lemma mat_assign_rect r c m i j t :
  rect r c m → i < r → j < c →
  returns (mat_assign m i j t) (λ m',
    rect r c m' ∧
    ∀ i' j', entry m' i' j' = if decide (i' = i ∧ j' = j) then t else entry m i' j').
Proof.
  intros Hm Hi Hj. destruct (rect_row r c m i Hm Hi) as (row & Hrow & Hlen).
  unfold mat_assign, vec_get, vec_set. rewrite Hrow. simpl.
  destruct (decide (j < length row)) as [_|]; [|lia]. simpl.
  apply returns_Ret. destruct Hm as [Hn Hall]. split.
  - split; simpl.
    + rewrite length_insert. exact Hn.
    + apply Forall_insert; [exact Hall|]. rewrite length_insert. exact Hlen.
  - intros i' j'. unfold entry. simpl.
    destruct (decide (i' = i)) as [->|Hne].
    + rewrite list_lookup_insert_eq by lia. simpl.
      destruct (decide (j' = j)) as [->|Hnc].
      * rewrite list_lookup_insert_eq by lia. rewrite decide_True by auto. reflexivity.
      * rewrite list_lookup_insert_ne by auto. rewrite decide_False by tauto.
        rewrite Hrow. reflexivity.
    + rewrite list_lookup_insert_ne by auto. rewrite decide_False by tauto. reflexivity.
Qed.

(** Outside its range a matrix is out of range. *)
Lemma mat_assign_outside r c m i j t :
  rect r c m → r ≤ i ∨ c ≤ j → mat_assign m i j t = Undefined.
Proof.
  intros [Hlen Hall] Hout. unfold mat_assign, vec_get, vec_set.
  destruct (data m !! i) as [row|] eqn:Hrow; [|reflexivity]. simpl.
  rewrite Forall_lookup in Hall. pose proof (Hall _ _ Hrow) as Hc.
  apply lookup_lt_Some in Hrow.
  destruct (decide (j < length row)); [lia|reflexivity].
Qed.

Lemma matrix_fill_rect r c (t : T) : rect r c (matrix_fill r c t).
Proof.
  split; simpl.
  - apply length_replicate.
  - apply Forall_replicate, length_replicate.
Qed.

Lemma entry_matrix_fill r c (t : T) i j :
  i < r → j < c → entry (matrix_fill r c t) i j = t.
Proof.
  intros Hi Hj. unfold entry, matrix_fill. simpl.
  rewrite lookup_replicate_2 by lia. simpl.
  rewrite lookup_replicate_2 by lia. reflexivity.
Qed.

(** Two matrices of the same dimensions with the same entries are the
    same matrix. *)
Lemma rect_ext r c a b :
  rect r c a → rect r c b →
  (∀ i j, i < r → j < c → entry a i j = entry b i j) → a = b.
Proof.
  intros Ha Hb Hent. destruct a as [da], b as [db]. f_equal.
  apply list_eq. intros i. destruct (decide (i < r)) as [Hi|Hi].
  - destruct (rect_row r c _ i Ha Hi) as (ra & Hra & Hla).
    destruct (rect_row r c _ i Hb Hi) as (rb & Hrb & Hlb).
    simpl in *. rewrite Hra, Hrb. f_equal.
    apply list_eq. intros j. destruct (decide (j < c)) as [Hj|Hj].
    + specialize (Hent i j Hi Hj). unfold entry in Hent. simpl in Hent.
      rewrite Hra, Hrb in Hent. simpl in Hent.
      destruct (lookup_lt_is_Some_2 ra j) as [ta Hta]; [lia|].
      destruct (lookup_lt_is_Some_2 rb j) as [tb Htb]; [lia|].
      rewrite Hta, Htb in *. simpl in Hent. congruence.
    + rewrite !lookup_ge_None_2 by lia. reflexivity.
  - destruct Ha as [Hla _], Hb as [Hlb _]. simpl in *.
    rewrite !lookup_ge_None_2 by lia. reflexivity.
Qed.

Lemma rect_empty_data c m : rect 0 c m → data m = [].
Proof. destruct m as [[|row d]]; [reflexivity|]. intros [Hlen _]. discriminate. Qed.

End rect_facts.

(** ** Construction, copy, transposition and scaling *)

Section matrix_basics.
Context {T : Type} `{Numeric T}.
Implicit Types m ret : matrix T.

Lemma identity_spec n :
  returns (identity (T:=T) n) (λ m,
    rect n n m ∧
    ∀ i j, i < n → j < n → entry m i j = if decide (i = j) then one else zero).
Proof.
  unfold identity. eapply returns_weaken.
  - apply (for_range_returns (λ k ret,
      rect n n ret ∧
      ∀ i j, i < n → j < n →
        entry ret i j = if decide (i = j ∧ i < k) then one else zero)); [lia| |].
    + split; [apply matrix_fill_rect|]. intros i j Hi Hj.
      rewrite entry_matrix_fill by lia. rewrite decide_False by lia. reflexivity.
    + intros k ret Hk [Hrect Hent].
      eapply returns_weaken; [apply (mat_assign_rect n n); auto; lia|].
      intros m' [Hm' Hent']. split; [exact Hm'|].
      intros i j Hi Hj. rewrite Hent', Hent by lia.
      repeat case_decide; destruct_and?; subst; try reflexivity; try lia.
      all: exfalso; intuition lia.
  - intros m [Hrect Hent]. split; [exact Hrect|].
    intros i j Hi Hj. rewrite Hent by lia.
    repeat case_decide; destruct_and?; subst; try reflexivity; try lia.
    all: exfalso; intuition lia.
Qed.

(** [identity(N)] returns, for every N, a matrix of N rows with N entries
    each, in which every read [m(i,j)] within the dimensions gives 1 on
    the diagonal and 0 off it. *)
Theorem identity_entries n :
  returns (identity (T:=T) n) (λ m,
    rect n n m ∧
    ∀ i j, i < n → j < n →
      mat_at m i j = Ret (if decide (i = j) then one else zero)).
Proof.
  eapply returns_weaken; [apply identity_spec|].
  intros m [Hrect Hent]. split; [exact Hrect|].
  intros i j Hi Hj.
  rewrite (mat_at_rect n n) by assumption. rewrite Hent by assumption.
  reflexivity.
Qed.

Lemma matrix_copy_rect r c m : rect r c m → matrix_copy m = Ret m.
Proof.
  intros Hm. destruct (decide (r = 0)) as [->|Hr].
  { destruct m as [[|row d]]; [reflexivity|]. destruct Hm as [Hlen _]. discriminate. }
  unfold matrix_copy.
  rewrite (rows_rect r c), (columns_rect r c) by (auto; lia).
  destruct (for_range_returns (λ i d, d = take i (data m)) 0 r
    (λ i d, row ← for_range 0 c (λ j row, t ← mat_at m i j; Ret (row ++ [t])) [];
            Ret (d ++ [row])) []) as (d & Hd & ->).
  - lia.
  - reflexivity.
  - intros i d Hi ->.
    destruct (rect_row r c m i Hm) as (row & Hrow & Hlen); [lia|].
    eapply returns_bind.
    + apply (for_range_returns (λ j row', row' = take j row)); [lia|reflexivity|].
      intros j row' Hj ->. rewrite (mat_at_rect r c) by (auto; lia). rewrite bind_Ret.
      apply returns_Ret. unfold entry. rewrite Hrow. simpl.
      destruct (lookup_lt_is_Some_2 row j) as [t Ht]; [lia|].
      rewrite Ht. simpl. symmetry. apply take_S_r, Ht.
    + intros row' ->. apply returns_Ret. rewrite (take_ge row) by lia.
      symmetry. apply take_S_r, Hrow.
  - rewrite Hd, bind_Ret. destruct Hm as [Hlen _].
    rewrite take_ge by lia. destruct m; reflexivity.
Qed.

(** The copy constructor, which pushes the entries one by one, returns a
    matrix equal to its argument whenever that is rectangular. *)
Theorem matrix_copy_equal r c m : rect r c m → matrix_copy m = Ret m.
Proof. apply matrix_copy_rect. Qed.

Lemma transpose_spec r c m :
  rect r c m → 0 < r →
  returns (transpose m) (λ m',
    rect c r m' ∧ ∀ i j, i < r → j < c → entry m' j i = entry m i j).
Proof.
  intros Hm Hr. unfold transpose.
  rewrite (rows_rect r c), (columns_rect r c) by auto.
  eapply returns_weaken.
  - apply (for_range_returns (λ k ret,
      rect c r ret ∧ ∀ i j, i < k → j < c → entry ret j i = entry m i j)); [lia| |].
    + split; [apply matrix_fill_rect|]. intros i j Hi. lia.
    + intros k ret Hk [Hrect Hent].
      eapply returns_weaken.
      * apply (for_range_returns (λ l ret',
          rect c r ret' ∧
          (∀ i j, i < k → j < c → entry ret' j i = entry m i j) ∧
          (∀ j, j < l → entry ret' j k = entry m k j))); [lia| |].
        -- split_and!; auto. intros j Hj. lia.
        -- intros l ret' Hl (Hrect' & Hold & Hnew).
           rewrite (mat_at_rect r c) by (auto; lia). rewrite bind_Ret.
           eapply returns_weaken; [apply (mat_assign_rect c r); auto; lia|].
           intros m' [Hm' Hent']. split_and!; [exact Hm'| |].
           ++ intros i j Hi Hj. rewrite Hent'. rewrite decide_False by lia.
              apply Hold; lia.
           ++ intros j Hj. rewrite Hent'. case_decide as Hd.
              ** destruct Hd as [-> _]. reflexivity.
              ** apply Hnew. lia.
      * intros ret' (Hrect' & Hold & Hnew). split; [exact Hrect'|].
        intros i j Hi Hj. destruct (decide (i = k)) as [->|Hne].
        -- apply Hnew. exact Hj.
        -- apply Hold; lia.
  - intros m' [Hrect Hent]. auto.
Qed.

End matrix_basics.

Section matrix_transpose_scale.
Context {T : Type} `{Numeric T}.
Implicit Types m ret : matrix T.

(** [transpose()] of a matrix with r rows (r not 0) and c columns returns
    a matrix of c rows and r columns whose entry (j, i) is the entry
    (i, j) of the original. *)
Theorem transpose_entries r c m :
  rect r c m → 0 < r →
  returns (transpose m) (λ m',
    rect c r m' ∧ ∀ i j, i < r → j < c → entry m' j i = entry m i j).
Proof. apply transpose_spec. Qed.


(** [operator*] by a scalar returns a matrix of the same dimensions with
    every entry multiplied, on the right, by the scalar. *)
Theorem matrix_scale_entries r c m t :
  rect r c m →
  returns (matrix_scale m t) (λ m',
    rect r c m' ∧ ∀ i j, i < r → j < c → entry m' i j = mul (entry m i j) t).
Proof.
  intros Hm. unfold matrix_scale. rewrite (matrix_copy_rect r c) by exact Hm.
  rewrite bind_Ret. destruct (decide (r = 0)) as [->|Hr].
  { rewrite (rows_rect 0 c) by exact Hm. rewrite for_range_empty by lia.
    apply returns_Ret. split; [exact Hm|]. intros i j Hi. lia. }
  rewrite (rows_rect r c), (columns_rect r c) by (auto; lia).
  eapply returns_weaken.
  - apply (for_range_returns (λ k ret,
      rect r c ret ∧
      ∀ i j, i < r → j < c →
        entry ret i j = if decide (i < k) then mul (entry m i j) t else entry m i j));
      [lia| |].
    + split; [exact Hm|]. intros i j Hi Hj. rewrite decide_False by lia. reflexivity.
    + intros k ret Hk [Hrect Hent].
      eapply returns_weaken.
      * apply (for_range_returns (λ l ret',
          rect r c ret' ∧
          ∀ i j, i < r → j < c →
            entry ret' i j = if decide (i < k ∨ (i = k ∧ j < l))
                             then mul (entry m i j) t else entry m i j)); [lia| |].
        -- split; [exact Hrect|]. intros i j Hi Hj. rewrite Hent by lia.
           repeat case_decide; try reflexivity; lia.
        -- intros l ret' Hl [Hrect' Hent'].
           rewrite (mat_at_rect r c) by (auto; lia). rewrite bind_Ret.
           eapply returns_weaken; [apply (mat_assign_rect r c); auto; lia|].
           intros m' [Hm' Hnew]. split; [exact Hm'|].
           intros i j Hi Hj. rewrite Hnew.
           destruct (decide (i = k ∧ j = l)) as [[-> ->]|Hne].
           ++ rewrite Hent' by lia. rewrite decide_False by lia.
              rewrite decide_True by lia. reflexivity.
           ++ rewrite Hent' by lia.
              repeat case_decide; try reflexivity; lia.
      * intros ret' [Hrect' Hent']. split; [exact Hrect'|].
        intros i j Hi Hj. rewrite Hent' by lia.
        repeat case_decide; try reflexivity; lia.
  - intros m' [Hrect Hent]. split; [exact Hrect|].
    intros i j Hi Hj. rewrite Hent by lia. rewrite decide_True by lia. reflexivity.
Qed.

End matrix_transpose_scale.

(** ** The matrix product *)

Section matrix_product.
Context {T : Type} `{Numeric T}.
Implicit Types a b m ret : matrix T.

Lemma matrix_mul_spec r k c a b :
  rect r k a → rect k c b → 0 < r → 0 < k →
  returns (matrix_mul a b) (λ m,
    rect r c m ∧ ∀ i j, i < r → j < c → entry m i j = mul_sum a b i j k).
Proof.
  intros Ha Hb Hr Hk. unfold matrix_mul.
  rewrite (rows_rect r k a), (columns_rect r k a) by auto.
  rewrite (rows_rect k c b), (columns_rect k c b) by auto.
  rewrite bool_decide_true by reflexivity. simpl assert. rewrite bind_Ret.
  set (F := λ (i kk l : nat) ret,
    rect r c ret ∧
    ∀ i' j', i' < r → j' < c →
      entry ret i' j'
      = if decide (i' < i) then mul_sum a b i' j' k
        else if decide (i' = i)
             then (if decide (j' < l) then mul_sum a b i' j' (S kk)
                   else mul_sum a b i' j' kk)
             else zero).
  eapply returns_weaken.
  - apply (for_range_returns (λ i ret, F i 0 0 ret)); [lia| |].
    + split; [apply matrix_fill_rect|]. intros i' j' Hi' Hj'.
      rewrite entry_matrix_fill by lia.
      repeat case_decide; try reflexivity; lia.
    + intros i ret Hi HF.
      eapply returns_weaken.
      * apply (for_range_returns (λ kk ret, F i kk 0 ret)); [lia|exact HF|].
        intros kk ret1 Hkk HF1.
        eapply returns_weaken.
        -- apply (for_range_returns (λ l ret, F i kk l ret)); [lia|exact HF1|].
           intros l ret2 Hl [Hrect2 Hent2].
           rewrite (mat_at_rect r c ret2) by (auto; lia). rewrite bind_Ret.
           rewrite (mat_at_rect r k a) by (auto; lia). rewrite bind_Ret.
           rewrite (mat_at_rect k c b) by (auto; lia). rewrite bind_Ret.
           eapply returns_weaken; [apply (mat_assign_rect r c); auto; lia|].
           intros m' [Hm' Hnew]. split; [exact Hm'|].
           intros i' j' Hi' Hj'. rewrite Hnew.
           destruct (decide (i' = i ∧ j' = l)) as [[-> ->]|Hne].
           ++ rewrite Hent2 by lia.
              rewrite (decide_False (P := i < i)) by lia.
              rewrite (decide_True (P := i = i)) by reflexivity.
              rewrite (decide_False (P := l < l)) by lia.
              rewrite (decide_False (P := i < i)) by lia.
              rewrite (decide_True (P := i = i)) by reflexivity.
              rewrite (decide_True (P := l < S l)) by lia. reflexivity.
           ++ rewrite Hent2 by lia.
              repeat case_decide; try reflexivity; lia.
        -- intros ret2 [Hrect2 Hent2]. split; [exact Hrect2|].
           intros i' j' Hi' Hj'. rewrite Hent2 by lia.
           repeat case_decide; try reflexivity; lia.
      * intros ret1 [Hrect1 Hent1]. split; [exact Hrect1|].
        intros i' j' Hi' Hj'. rewrite Hent1 by lia.
        repeat case_decide; subst; try reflexivity; try lia.
  - intros m [Hrect Hent]. split; [exact Hrect|].
    intros i j Hi Hj. rewrite Hent by lia. rewrite decide_True by lia. reflexivity.
Qed.

(** The product of a matrix of r rows and k columns with one of k rows and
    c columns (r and k not 0) is returned with r rows and c columns; its
    entry (i, j) is the sum of [a(i,l) * b(l,j)] over l, accumulated from
    zero in increasing order of l. *)
Theorem matrix_mul_entries r k c a b :
  rect r k a → rect k c b → 0 < r → 0 < k →
  returns (matrix_mul a b) (λ m,
    rect r c m ∧ ∀ i j, i < r → j < c → entry m i j = mul_sum a b i j k).
Proof. apply matrix_mul_spec. Qed.

(** A left operand without rows reports no columns either: its product
    with a matrix that has rows trips the [assert], whatever the
    dimensions it was constructed with; with a matrix without rows the
    product is the matrix without rows. *)
Theorem matrix_mul_empty_left k c b :
  rect k c b →
  matrix_mul (Matrix []) b = if decide (k = 0) then Ret (Matrix []) else AssertFail.
Proof.
  intros Hb. unfold matrix_mul. rewrite (rows_rect k c b) by exact Hb.
  change (columns (Matrix (T:=T) [])) with 0. change (rows (Matrix (T:=T) [])) with 0.
  case_decide as Hk.
  - subst k. reflexivity.
  - rewrite bool_decide_false by lia. reflexivity.
Qed.

End matrix_product.

(** ** Products with the identity *)

Section matrix_ring.
Context {T : Type} `{Numeric T}.
Hypothesis ring_laws : ring_theory zero one add mul sub neg (@eq T).
Implicit Types a b m ret : matrix T.

Add Ring numeric_ring : ring_laws.

Lemma mul_sum_identity_r a e i j k :
  (∀ l j', l < k → entry e l j' = if decide (l = j') then one else zero) →
  mul_sum a e i j k = if decide (j < k) then entry a i j else zero.
Proof.
  induction k as [|k IH]; intros He; [reflexivity|].
  simpl. rewrite IH by (intros; apply He; lia). rewrite He by lia.
  repeat case_decide; subst; try lia; ring.
Qed.

Lemma mul_sum_identity_l a e i j k :
  (∀ l, l < k → entry e i l = if decide (i = l) then one else zero) →
  mul_sum e a i j k = if decide (i < k) then entry a i j else zero.
Proof.
  induction k as [|k IH]; intros He; [reflexivity|].
  simpl. rewrite IH by (intros; apply He; lia). rewrite He by lia.
  repeat case_decide; subst; try lia; ring.
Qed.

(** Over a ring, a matrix of r rows and c columns (neither 0) multiplied
    on the right by [identity(c)], or on the left by [identity(r)], is
    returned unchanged. *)
Theorem matrix_mul_identity r c a :
  rect r c a → 0 < r → 0 < c →
  (e ← identity c; matrix_mul a e) = Ret a ∧
  (e ← identity r; matrix_mul e a) = Ret a.
Proof.
  intros Ha Hr Hc. split.
  - destruct (identity_spec (T:=T) c) as (e & -> & He & Hent). rewrite bind_Ret.
    destruct (matrix_mul_spec r c c a e Ha He Hr Hc) as (m & -> & Hm & Hmul).
    f_equal. apply (rect_ext r c); auto.
    intros i j Hi Hj. rewrite Hmul by lia.
    rewrite mul_sum_identity_r.
    + rewrite decide_True by lia. reflexivity.
    + intros l j' Hl. destruct (decide (j' < c)) as [Hj'|Hj'].
      * apply Hent; lia.
      * rewrite decide_False by lia.
        unfold entry. destruct He as [_ Hall]. rewrite Forall_lookup in Hall.
        destruct (data e !! l) as [row|] eqn:Hrow; [|reflexivity]. simpl.
        rewrite lookup_ge_None_2; [reflexivity|]. rewrite (Hall _ _ Hrow). lia.
  - destruct (identity_spec (T:=T) r) as (e & -> & He & Hent). rewrite bind_Ret.
    destruct (matrix_mul_spec r r c e a He Ha Hr Hr) as (m & -> & Hm & Hmul).
    f_equal. apply (rect_ext r c); auto.
    intros i j Hi Hj. rewrite Hmul by lia.
    rewrite mul_sum_identity_l.
    + rewrite decide_True by lia. reflexivity.
    + intros l Hl. apply Hent; lia.
Qed.

End matrix_ring.

(** ** What inversion and determinant never do *)

Section elimination_safety.
Context {T : Type} `{Numeric T}.
Implicit Types m tmp ret this : matrix T.

Lemma pivot_scan_bounds n i tmp remaining j0 :
  square n tmp → i < n → j0 + remaining = n →
  returns (pivot_scan tmp i remaining j0) (λ j, j0 ≤ j ≤ n).
Proof.
  intros Hsq Hi. revert j0. induction remaining as [|remaining IH]; intros j0 Hj0.
  - apply returns_Ret. lia.
  - simpl. rewrite (mat_at_square n) by (auto; lia). rewrite bind_Ret.
    destruct (eqb (entry tmp j0 i) zero).
    + eapply returns_weaken; [apply (IH (S j0)); lia|].
      intros j Hj. cbv beta in Hj. lia.
    + apply returns_Ret. lia.
Qed.

Lemma inverse_step_safe n this i tmp ret :
  square n this → square n tmp → square n ret → i < n →
  returns (inverse_step this i (tmp, ret)) (λ st, square n st.1 ∧ square n st.2) ∨
  inverse_step this i (tmp, ret) = Throw degenerate_matrix_error.
Proof.
  intros Hthis Htmp Hret Hi. unfold inverse_step. cbn [fst].
  rewrite (rows_square n this) by exact Hthis.
  destruct (pivot_scan_bounds n i tmp (n - i) i Htmp Hi) as (j & -> & Hj); [lia|].
  rewrite bind_Ret. case_bool_decide as Hjn; [right; reflexivity|left].
  eapply returns_bind.
  - instantiate (1 := λ st, square n st.1 ∧ square n st.2).
    case_bool_decide.
    + eapply returns_weaken; [apply (inverse_swap_square n this); auto; lia|].
      intros st (H1 & H2 & _). auto.
    + apply returns_Ret. auto.
  - intros [tmp1 ret1] [H1 H2]. cbn [fst snd] in *.
    eapply returns_bind; [apply (inverse_normalise_square n this); auto|].
    intros [tmp2 ret2] (H3 & H4 & _). cbn [fst snd] in *.
    eapply returns_weaken; [apply (inverse_eliminate_square n this); auto|].
    intros st (H5 & H6 & _). auto.
Qed.

Lemma inverse_steps_safe n this k i tmp ret :
  square n this → square n tmp → square n ret → i + k ≤ n →
  returns (for_count k i (inverse_step this) (tmp, ret))
          (λ st, square n st.1 ∧ square n st.2) ∨
  for_count k i (inverse_step this) (tmp, ret) = Throw degenerate_matrix_error.
Proof.
  intros Hthis. revert i tmp ret.
  induction k as [|k IH]; intros i tmp ret Htmp Hret Hik.
  - left. apply returns_Ret. auto.
  - simpl.
    assert (Hi : i < n) by lia.
    destruct (inverse_step_safe n this i tmp ret Hthis Htmp Hret Hi)
      as [([tmp1 ret1] & -> & H1 & H2)| ->].
    + rewrite bind_Ret. apply IH; auto. lia.
    + right. reflexivity.
Qed.

Lemma inverse_square_outcome n m :
  square n m →
  returns (inverse m) (square n) ∨ inverse m = Throw degenerate_matrix_error.
Proof.
  intros Hm. unfold inverse.
  rewrite (rows_square n), (columns_square n) by exact Hm.
  rewrite bool_decide_true by reflexivity. simpl assert. rewrite bind_Ret.
  rewrite (matrix_copy_square n) by exact Hm. rewrite bind_Ret.
  destruct (identity_square (T:=T) n) as (ret0 & -> & Hret0). rewrite bind_Ret.
  unfold for_range. rewrite Nat.sub_0_r.
  destruct (inverse_steps_safe n m n 0 m ret0 Hm Hm Hret0)
    as [([tmp1 ret1] & -> & H1 & H2)| ->]; [lia| |].
  - left. rewrite bind_Ret. apply returns_Ret. exact H2.
  - right. reflexivity.
Qed.

(** [inverse()] on a square matrix either returns a square matrix of the
    same size or throws [degenerate_matrix_error]: no [assert] fails and
    no index leaves its range.  On a matrix whose numbers of rows and
    columns differ the [assert] fails. *)
Theorem inverse_safe r c m :
  rect r c m → 0 < r →
  if decide (r = c)
  then returns (inverse m) (square r) ∨ inverse m = Throw degenerate_matrix_error
  else inverse m = AssertFail.
Proof.
  intros Hm Hr. case_decide as Hrc.
  - subst c. apply inverse_square_outcome, Hm.
  - unfold inverse. rewrite (rows_rect r c), (columns_rect r c) by auto.
    rewrite bool_decide_false by exact Hrc. reflexivity.
Qed.

Lemma determinant_turn_safe n this i j tmp b :
  square n this → square n tmp → i < n → j < n →
  returns (determinant_turn this i j tmp b) (λ st, square n st.1).
Proof.
  intros Hthis Htmp Hi Hj. unfold determinant_turn.
  eapply returns_bind.
  - instantiate (1 := λ st, square n st.1). case_bool_decide.
    + eapply returns_bind; [apply (determinant_swap_square n this); auto|].
      intros tmp1 [H1 _]. apply returns_Ret. exact H1.
    + apply returns_Ret. exact Htmp.
  - intros [tmp1 b1] H1. cbn [fst] in *.
    eapply returns_bind; [apply (determinant_eliminate_square n this); auto|].
    intros tmp2 [H2 _]. apply returns_Ret. exact H2.
Qed.

Lemma determinant_product_returns n this tmp b :
  square n this → square n tmp → ∃ t, determinant_product this tmp b = Ret t.
Proof.
  intros Hthis Htmp. unfold determinant_product.
  rewrite (rows_square n this) by exact Hthis.
  destruct (for_range_returns (λ _ _, True) 0 n
    (λ i (res : T), d ← mat_at tmp i i; Ret (mul res d)) one) as (t & -> & _);
    [lia|exact I| |eauto].
  intros k s Hk _. rewrite (mat_at_square n) by (auto; lia).
  apply returns_Ret. exact I.
Qed.

Lemma determinant_loop_returns n this :
  (Z.of_nat n < size_max)%Z → square n this → 0 < n →
  ∀ k i tmp b fuel,
    i + k = n → k < fuel → square n tmp →
    ∃ t, determinant_loop this fuel i tmp b ≫= determinant_leave this = Ret t.
Proof.
  intros Hn Hthis Hpos. induction k as [|k IH]; intros i tmp b fuel Hik Hfuel Htmp.
  - (* [i = rows()]: not reached, the loop leaves at [rows() - 1] *)
    destruct fuel as [|fuel].
    + lia.
    + simpl determinant_loop. rewrite (rows_square n this) by exact Hthis.
      rewrite to_size_small by (unfold size_max in *; lia).
      destruct (Z.ltb_spec (Z.of_nat i) (Z.of_nat n - 1)); [lia|].
      rewrite bind_Ret. apply (determinant_product_returns n); auto.
  - destruct fuel as [|fuel]; [lia|].
    simpl determinant_loop. rewrite (rows_square n this) by exact Hthis.
    rewrite to_size_small by (unfold size_max in *; lia).
    destruct (Z.ltb_spec (Z.of_nat i) (Z.of_nat n - 1)) as [Hlt|Hge].
    + destruct (pivot_scan_bounds n i tmp (n - i) i Htmp) as (j & -> & Hj); [lia|lia|].
      rewrite bind_Ret. case_bool_decide as Hjn; [eauto|].
      assert (Hi : i < n) by lia. assert (Hj' : j < n) by lia.
      destruct (determinant_turn_safe n this i j tmp b Hthis Htmp Hi Hj')
        as ([tmp1 b1] & -> & H1).
      rewrite bind_Ret. cbn [fst snd] in *.
      apply (IH (S i)); auto; lia.
    + rewrite bind_Ret. apply (determinant_product_returns n); auto.
Qed.

End elimination_safety.

Section determinant_safety.
Context {T : Type} `{Numeric T}.

(** [determinant()] on a square matrix always returns a number: no
    [assert] fails, no index leaves its range and the outer loop ends.  On
    a matrix whose numbers of rows and columns differ the [assert] fails. *)
Theorem determinant_safe r c (m : matrix T) :
  rect r c m → 0 < r → (Z.of_nat r < size_max)%Z →
  if decide (r = c)
  then ∃ t, determinant m = Ret t
  else determinant m = AssertFail.
Proof.
  intros Hm Hr Hsize. case_decide as Hrc.
  - subst c. unfold determinant.
    rewrite (rows_square r), (columns_square r) by exact Hm.
    rewrite bool_decide_true by reflexivity. simpl assert. rewrite bind_Ret.
    rewrite (matrix_copy_square r) by exact Hm. rewrite bind_Ret.
    apply (determinant_loop_returns r m Hsize Hm Hr r 0); auto; lia.
  - unfold determinant. rewrite (rows_rect r c), (columns_rect r c) by auto.
    rewrite bool_decide_false by exact Hrc. reflexivity.
Qed.

End determinant_safety.

Ltac close_bool :=
  match goal with
  | |- context [bool_decide ?P] =>
      let b := eval vm_compute in (bool_decide P) in
      lazymatch b with
      | true => change (bool_decide P) with true
      | false => change (bool_decide P) with false
      end
  | |- context [Z.ltb ?x ?y] =>
      let b := eval vm_compute in (Z.ltb x y) in
      lazymatch b with
      | true => change (Z.ltb x y) with true
      | false => change (Z.ltb x y) with false
      end
  | |- context [decide (?i < ?n)] =>
      first [ rewrite (decide_True (P := i < n)) by (simpl; lia)
            | rewrite (decide_False (P := i < n)) by (simpl; lia) ]
  end.

(** ** Two by two, over a field *)

Section two_by_two.
Context {T : Type} `{NumericLaws T}.

Hypothesis field_laws :
  field_theory zero one add mul sub neg div (λ x, div one x) (@eq T).
Add Field numeric_field : field_laws.

Lemma M22_eq (a b c d a' b' c' d' : T) :
  a = a' → b = b' → c = c' → d = d' → M22 a b c d = M22 a' b' c' d'.
Proof. congruence. Qed.

Lemma eqb_zero_true : eqb (zero : T) zero = true.
Proof. apply eqb_eq. reflexivity. Qed.

Lemma eqb_zero_false (x : T) : x ≠ zero → eqb x zero = false.
Proof.
  intros Hx. destruct (eqb x zero) eqn:E; [|reflexivity].
  apply eqb_eq in E. contradiction.
Qed.

Lemma eqb_zero_cases (x : T) : x = zero ∨ x ≠ zero.
Proof.
  destruct (eqb x zero) eqn:E.
  - left. apply eqb_eq. exact E.
  - right. intros Hx. apply eqb_eq in Hx. congruence.
Qed.

Lemma mul_integral (x y : T) : mul x y = zero → x ≠ zero → y = zero.
Proof.
  intros E Hx. transitivity (div (mul x y) x); [field; exact Hx|].
  rewrite E. field. exact Hx.
Qed.

Ltac fnonzero :=
  first
    [ assumption
    | exact (F_1_neq_0 field_laws)
    | match goal with
      | H : ?y ≠ _ |- ?x ≠ _ =>
          let E := fresh in
          intros E; apply H; ring_simplify; ring_simplify in E; exact E
      end ].

Ltac ffield := unfold det22 in *; field; repeat split; fnonzero.

Ltac fstep :=
  unfold inverse_step, inverse_swap, inverse_normalise, inverse_eliminate, M22.

Ltac feval :=
  repeat (
    unfold determinant_turn, determinant_swap, determinant_eliminate,
      determinant_leave, determinant_product, inverse_step, inverse_swap,
      inverse_normalise, inverse_eliminate, identity, for_range,
      mat_swap, mat_assign, mat_at, vec_set, vec_get;
    cbn -[to_size];
    first [ close_bool | rewrite eqb_zero_true
          | rewrite eqb_zero_false by assumption ]);
  cbn -[to_size].

Lemma inverse_step_0_first this' (a b c d p q r s : T) :
  rows this' = 2 → columns this' = 2 → a ≠ zero →
  inverse_step this' 0 (M22 a b c d, M22 p q r s)
  = Ret (M22 one (div b a) zero (sub d (mul (div b a) c)),
         M22 (div p a) (div q a)
             (sub r (mul (div p a) c)) (sub s (mul (div q a) c))).
Proof.
  intros Hr Hc Ha. fstep. rewrite Hr, Hc. feval.
  f_equal. f_equal; apply M22_eq; ffield.
Qed.

Lemma inverse_step_0_second this' (b c d p q r s : T) :
  rows this' = 2 → columns this' = 2 → c ≠ zero →
  inverse_step this' 0 (M22 zero b c d, M22 p q r s)
  = Ret (M22 one (div d c) zero b, M22 (div r c) (div s c) p q).
Proof.
  intros Hr Hc Hc0. fstep. rewrite Hr, Hc. feval.
  f_equal. f_equal; apply M22_eq; ffield.
Qed.

Lemma inverse_step_0_none this' (b d p q r s : T) :
  rows this' = 2 → columns this' = 2 →
  inverse_step this' 0 (M22 zero b zero d, M22 p q r s)
  = Throw degenerate_matrix_error.
Proof. intros Hr Hc. fstep. rewrite Hr, Hc. feval. reflexivity. Qed.

Lemma inverse_step_1_pivot this' (a b c d p q r s : T) :
  rows this' = 2 → columns this' = 2 → d ≠ zero →
  inverse_step this' 1 (M22 a b c d, M22 p q r s)
  = Ret (M22 (sub a (mul (div c d) b)) zero (div c d) one,
         M22 (sub p (mul (div r d) b)) (sub q (mul (div s d) b))
             (div r d) (div s d)).
Proof.
  intros Hr Hc Hd. fstep. rewrite Hr, Hc. feval.
  f_equal. f_equal; apply M22_eq; ffield.
Qed.

Lemma inverse_step_1_none this' (a b c p q r s : T) :
  rows this' = 2 → columns this' = 2 →
  inverse_step this' 1 (M22 a b c zero, M22 p q r s)
  = Throw degenerate_matrix_error.
Proof. intros Hr Hc. fstep. rewrite Hr, Hc. feval. reflexivity. Qed.

Lemma inverse_two_unfold (a b c d : T) :
  inverse (M22 a b c d)
  = (st ← (st ← inverse_step (M22 a b c d) 0
                   (M22 a b c d, M22 one zero zero one);
           st ← inverse_step (M22 a b c d) 1 st;
           Ret st);
     Ret st.2).
Proof.
  unfold inverse. rewrite (matrix_copy_square 2).
  - reflexivity.
  - split; [reflexivity|]. repeat constructor.
Qed.

(** Over a field whose [==] decides equality, [inverse()] is right on
    every 2 by 2 matrix: it throws when the determinant [a d - b c] is 0
    and returns the adjugate divided by the determinant otherwise. *)
Theorem inverse_two_by_two (a b c d : T) :
  inverse (M22 a b c d)
  = if eqb (det22 a b c d) zero then Throw degenerate_matrix_error
    else Ret (M22 (div d (det22 a b c d)) (div (neg b) (det22 a b c d))
                  (div (neg c) (det22 a b c d)) (div a (det22 a b c d))).
Proof.
  rewrite inverse_two_unfold.
  assert (Hr : rows (M22 a b c d) = 2) by reflexivity.
  assert (Hc : columns (M22 a b c d) = 2) by reflexivity.
  destruct (eqb_zero_cases a) as [->|Ha].
  - destruct (eqb_zero_cases c) as [->|Hc0].
    + rewrite inverse_step_0_none by assumption.
      cbn [mbind outcome_mbind outcome_bind].
      replace (det22 zero b zero d) with (zero : T) by (unfold det22; ring).
      rewrite eqb_zero_true. reflexivity.
    + rewrite inverse_step_0_second by assumption. rewrite bind_Ret.
      destruct (eqb_zero_cases b) as [->|Hb].
      * rewrite inverse_step_1_none by assumption.
        cbn [mbind outcome_mbind outcome_bind].
        replace (det22 zero zero c d) with (zero : T) by (unfold det22; ring).
        rewrite eqb_zero_true. reflexivity.
      * rewrite inverse_step_1_pivot by assumption. rewrite !bind_Ret. cbn [snd].
        assert (Hdet : det22 zero b c d ≠ zero).
        { intros E. apply Hc0, (mul_integral b c); [|exact Hb].
          transitivity (neg (det22 zero b c d)); [unfold det22; ring|].
          rewrite E. ring. }
        rewrite eqb_zero_false by exact Hdet.
        f_equal. apply M22_eq; ffield.
  - rewrite inverse_step_0_first by assumption. rewrite bind_Ret.
    destruct (eqb_zero_cases (sub d (mul (div b a) c))) as [E|Hd].
    + rewrite E. rewrite inverse_step_1_none by assumption.
      cbn [mbind outcome_mbind outcome_bind].
      replace (det22 a b c d) with (zero : T).
      * rewrite eqb_zero_true. reflexivity.
      * transitivity (mul a (sub d (mul (div b a) c))); [rewrite E; ring|].
        ffield.
    + rewrite inverse_step_1_pivot by assumption. rewrite !bind_Ret. cbn [snd].
      assert (Hdet : det22 a b c d ≠ zero).
      { intros E. apply Hd. transitivity (div (det22 a b c d) a); [ffield|].
        rewrite E. field. exact Ha. }
      rewrite eqb_zero_false by exact Hdet.
      f_equal. apply M22_eq; ffield.
Qed.

(** Over a field whose [==] decides equality, [determinant()] of a 2 by 2
    matrix is [a d - b c], by each of its paths: the pivot in place, the
    rows swapped and the sign changed, and the early return of 0. *)
Theorem determinant_two_by_two (a b c d : T) :
  determinant (M22 a b c d) = Ret (det22 a b c d).
Proof.
  unfold determinant, M22.
  destruct (eqb_zero_cases a) as [->|Ha].
  - destruct (eqb_zero_cases c) as [->|Hc].
    + feval. f_equal. unfold det22. ring.
    + feval. f_equal. ffield.
  - feval. f_equal. ffield.
Qed.

End two_by_two.

(** ** The transform never leaves its buffers *)

Lemma to_int_small z : (0 ≤ z < 2 ^ 31)%Z → to_int z = z.
Proof.
  intros Hz. unfold to_int. rewrite Z.mod_small by lia.
  destruct (Z.ltb_spec z (2 ^ 31)); [reflexivity|lia].
Qed.

Lemma to_size_nat z : (0 ≤ z < 2 ^ 64)%Z → to_size z = z.
Proof. intros Hz. unfold to_size, size_max. apply Z.mod_small, Hz. Qed.

Lemma resize_length {A} n (t : A) v : length (resize n t v) = n.
Proof.
  unfold resize. rewrite length_app, length_take, length_replicate. lia.
Qed.

(** The doubling loop stops at the least power of two that is not below
    the size. *)
Lemma padded_length_returns size :
  (Z.of_nat size ≤ 2 ^ 31)%Z →
  ∀ fuel a,
    a ≤ 32 → 32 - a < fuel →
    (a = 0 ∨ (2 ^ Z.of_nat (a - 1) < Z.of_nat size)%Z) →
    returns (padded_length fuel (2 ^ Z.of_nat a) size) (λ len,
      ∃ b, len = (2 ^ Z.of_nat b)%Z ∧ b ≤ 31 ∧ (Z.of_nat size ≤ len)%Z ∧
           (b = 0 ∨ (2 ^ Z.of_nat (b - 1) < Z.of_nat size)%Z)).
Proof.
  intros Hsize. induction fuel as [|fuel IH]; intros a Ha Hfuel Hmin; [lia|].
  simpl. destruct (Z.ltb_spec (2 ^ Z.of_nat a) (Z.of_nat size)) as [Hlt|Hge].
  - assert (Ha31 : a < 31).
    { destruct (decide (a < 31)) as [|Hn]; [assumption|].
      assert (2 ^ 31 ≤ 2 ^ Z.of_nat a)%Z by (apply Z.pow_le_mono_r; lia). lia. }
    rewrite Z.shiftl_mul_pow2 by lia. rewrite <- Z.pow_add_r by lia.
    assert (Hpow : (2 ^ (Z.of_nat a + 1) ≤ 2 ^ 31)%Z) by (apply Z.pow_le_mono_r; lia).
    rewrite to_size_nat by (split; [apply Z.pow_nonneg|]; lia).
    replace (Z.of_nat a + 1)%Z with (Z.of_nat (S a)) by lia.
    apply IH; [lia|lia|]. right. replace (S a - 1) with a by lia. exact Hlt.
  - apply returns_Ret. exists a. split_and!; auto.
    destruct Hmin as [->|Hmin]; [lia|].
    destruct (decide (a ≤ 31)) as [|Hn]; [assumption|].
    assert (2 ^ 31 ≤ 2 ^ Z.of_nat (a - 1))%Z by (apply Z.pow_le_mono_r; lia). lia.
Qed.

Section fft_safety.
Context {C : Type} `{Complex C}.
Context (unit_root : Z → nat → nat → C).

(** One pass over the blocks of size [i = 2 h] of a buffer of [L] blocks. *)
Lemma blocks_returns roots L h (P : list C) :
  1 ≤ h → L * h ≤ length roots → (Z.of_nat (L * (2 * h)) ≤ 2 ^ 31)%Z →
  ∀ fuel t P0,
    t ≤ L → L - t < fuel → length P0 = L * (2 * h) →
    returns (blocks fuel roots (Z.of_nat L) (2 * h) (t * (2 * h)) P0)
            (λ P', length P' = L * (2 * h)).
Proof.
  intros Hh Hroots Hbound.
  induction fuel as [|fuel IH]; intros t P0 Ht Hfuel Hlen; [lia|].
  rewrite blocks_S. rewrite Hlen. case_bool_decide as Hj.
  - assert (HtL : t < L) by nia.
    replace (2 * h / 2) with h by (rewrite Nat.mul_comm, Nat.div_mul; lia).
    eapply returns_bind.
    + apply (for_range_returns (λ _ P1, length P1 = L * (2 * h)));
        [lia|exact Hlen|].
      intros k P1 Hk Hlen1. unfold butterfly.
      replace (2 * h / 2) with h by (rewrite Nat.mul_comm, Nat.div_mul; lia).
      assert (Hin : t * (2 * h) + k + h < L * (2 * h)) by nia.
      destruct (lookup_lt_is_Some_2 P1 (t * (2 * h) + k)) as [u Hu]; [lia|].
      destruct (lookup_lt_is_Some_2 P1 (t * (2 * h) + k + h)) as [w Hw]; [lia|].
      assert (Hidx : Z.to_nat (to_size (Z.of_nat L * Z.of_nat k)) = L * k).
      { rewrite to_size_nat by nia. lia. }
      destruct (lookup_lt_is_Some_2 roots (L * k)) as [r' Hr']; [nia|].
      unfold vec_get. rewrite Hu, Hw, Hidx, Hr'. rewrite !bind_Ret.
      unfold vec_set. rewrite decide_True by lia. rewrite bind_Ret.
      rewrite decide_True by (rewrite length_insert; lia).
      apply returns_Ret. rewrite !length_insert. exact Hlen1.
    + intros P1 Hlen1. cbv beta in Hlen1.
      replace (t * (2 * h) + 2 * h) with (S t * (2 * h)) by lia.
      apply IH; [lia|lia|exact Hlen1].
  - apply returns_Ret. exact Hlen.
Qed.

(** The stages from block size [i = 2 h] on, on a buffer of [2 ^ e] such
    blocks. *)
Lemma stages_returns roots :
  ∀ e fuel h (P : list C),
    1 ≤ h → e + 1 < fuel →
    length P = 2 ^ e * (2 * h) → 2 ^ e * h ≤ length roots →
    (Z.of_nat (2 ^ e * (2 * h)) ≤ 2 ^ 31)%Z →
    returns (stages fuel roots (2 * h) P) (λ P', length P' = length P).
Proof.
  induction e as [|e IH]; intros fuel h P Hh Hfuel Hlen Hroots Hbound.
  - destruct fuel as [|[|fuel]]; [lia|lia|].
    rewrite stages_S. rewrite bool_decide_true by (rewrite Hlen; simpl; lia).
    replace (length P / (2 * h)) with 1
      by (rewrite Hlen; simpl; rewrite Nat.add_0_r, Nat.div_same; lia).
    rewrite to_int_small by lia.
    eapply returns_bind.
    + refine (blocks_returns roots 1 h P Hh _ _ (S (length P)) 0 P _ _ _);
        simpl in *; lia.
    + intros P1 Hlen1. cbv beta in Hlen1. rewrite stages_S.
      rewrite bool_decide_false by (simpl in *; lia).
      apply returns_Ret. simpl in *. lia.
  - destruct fuel as [|fuel]; [lia|].
    assert (Hpos : 1 ≤ 2 ^ S e) by (apply Nat.neq_0_lt_0, Nat.pow_nonzero; lia).
    rewrite stages_S. rewrite bool_decide_true by (rewrite Hlen; nia).
    replace (length P / (2 * h)) with (2 ^ S e)
      by (rewrite Hlen, Nat.div_mul; lia).
    rewrite to_int_small by nia.
    eapply returns_bind.
    + refine (blocks_returns roots (2 ^ S e) h P Hh _ _ (S (length P)) 0 P _ _ _);
        try lia; nia.
    + intros P1 Hlen1. cbv beta in Hlen1.
      rewrite Nat.pow_succ_r' in *.
      replace (2 * h * 2) with (2 * (2 * h)) by lia.
      eapply returns_weaken.
      * apply (IH fuel (2 * h) P1); try lia.
      * intros P2 HP2. cbv beta in HP2. lia.
Qed.

(** On a buffer of at most [2 ^ 31] values [FFT] returns, whatever the
    direction and whatever the cache holds: no index leaves the buffer or
    the cache and every loop ends.  The buffer comes back with the least
    power of two that is not below its length as its new length; an empty
    buffer comes back with one value. *)
Theorem FFT_returns_padded (P : list C) inv roots :
  (Z.of_nat (length P) ≤ 2 ^ 31)%Z →
  returns (FFT unit_root P inv roots) (λ st,
    ∃ b, length st.1 = 2 ^ b ∧ length P ≤ 2 ^ b ∧
         (b = 0 ∨ 2 ^ (b - 1) < length P)).
Proof.
  intros Hsize. unfold FFT.
  destruct (padded_length_returns (length P) Hsize 65 0)
    as (len & Hpad & b & -> & Hb & Hge & Hmin); [lia|lia|left; reflexivity|].
  change (2 ^ Z.of_nat 0)%Z with 1%Z in Hpad. rewrite Hpad, bind_Ret.
  assert (HN : Z.to_nat (2 ^ Z.of_nat b) = 2 ^ b).
  { rewrite <- (Nat2Z.id (2 ^ b)). f_equal. rewrite Nat2Z.inj_pow. reflexivity. }
  rewrite HN.
  assert (HZ : Z.of_nat (2 ^ b) = (2 ^ Z.of_nat b)%Z) by (rewrite Nat2Z.inj_pow; reflexivity).
  assert (Hb31 : (2 ^ Z.of_nat b ≤ 2 ^ 31)%Z) by (apply Z.pow_le_mono_r; lia).
  set (P0 := resize (2 ^ b) czero P).
  assert (HP0 : length P0 = 2 ^ b) by apply resize_length.
  rewrite permute_identity by (rewrite HP0; lia). rewrite bind_Ret.
  assert (Hroots : returns
    (if bool_decide (length roots ≠ length P0 / 2)
     then fill_roots unit_root inv (length P0) else Ret roots)
    (λ roots', length P0 / 2 ≤ length roots')).
  { case_bool_decide as Hne.
    - eapply returns_weaken; [apply fill_roots_returns|].
      intros r' (Hr' & _). cbv beta. rewrite Hr'.
      apply Nat.Div0.div_le_upper_bound. lia.
    - apply returns_Ret. destruct (decide (length roots = length P0 / 2)); [lia|tauto]. }
  eapply returns_bind; [exact Hroots|]. clear Hroots.
  intros roots' Hroots'. cbv beta in Hroots'.
  assert (Hstages : returns (stages 64 roots' 2 P0) (λ P', length P' = 2 ^ b)).
  { destruct b as [|e].
    - rewrite stages_S. rewrite bool_decide_false by (rewrite HP0; simpl; lia).
      apply returns_Ret. exact HP0.
    - rewrite Nat.pow_succ_r' in *.
      eapply returns_weaken.
      + apply (stages_returns roots' e 64 1 P0); try lia.
        rewrite HP0 in Hroots'.
        replace (2 * 2 ^ e / 2) with (2 ^ e) in Hroots'
          by (rewrite Nat.mul_comm, Nat.div_mul; lia). lia.
      + intros P' HP'. cbv beta in HP'. lia. }
  eapply returns_bind; [exact Hstages|]. clear Hstages.
  intros P' HP'. cbv beta in HP'. apply returns_Ret. cbn [fst].
  exists b. split_and!.
  - destruct (bool_decide (inv = (-1)%Z)); [rewrite length_fmap|]; exact HP'.
  - apply Nat2Z.inj_le. rewrite HZ. exact Hge.
  - destruct Hmin as [->|Hmin]; [left; reflexivity|right].
    apply Nat2Z.inj_lt. rewrite Nat2Z.inj_pow.
    replace (Z.of_nat (b - 1)) with (Z.of_nat (b - 1)) by reflexivity. exact Hmin.
Qed.

End fft_safety.

(** ** The transform on one and two values *)

Section fft_short.
Context {C : Type} `{Complex C}.
Context (unit_root : Z → nat → nat → C).

Lemma FFT_one p0 inv roots :
  FFT unit_root [p0] inv roots
  = (roots ← (if bool_decide (length roots ≠ 0) then Ret [czero] else Ret roots);
     Ret (if bool_decide (inv = (-1)%Z) then [cdiv_size p0 1] else [p0], roots)).
Proof. reflexivity. Qed.

Lemma FFT_two p0 p1 inv roots :
  FFT unit_root [p0; p1] inv roots
  = (roots ← (if bool_decide (length roots ≠ 1)
              then Ret [unit_root inv 2 0; czero] else Ret roots);
     P ← stages 64 roots 2 [p0; p1];
     Ret (if bool_decide (inv = (-1)%Z)
          then (λ a, cdiv_size a (length P)) <$> P else P, roots)).
Proof. reflexivity. Qed.

Lemma stages_two r0 rest p0 p1 :
  stages 64 (r0 :: rest) 2 [p0; p1]
  = Ret [cadd p0 (cmul p1 r0); csub p0 (cmul p1 r0)].
Proof. reflexivity. Qed.

(** A cache of one value is the zero that a refill for the length 1
    leaves. *)
Lemma cache_state_one roots :
  cache_state unit_root roots → length roots = 1 → roots = [czero].
Proof.
  intros [->|(inv & N & Hfill)] Hlen; [discriminate|].
  destruct (fill_roots_returns unit_root inv N) as (roots' & Hfill' & HN & _).
  rewrite Hfill in Hfill'. injection Hfill' as <-.
  rewrite Hlen in HN. subst N.
  cbv in Hfill. injection Hfill as <-. reflexivity.
Qed.

End fft_short.

Lemma gauss_cmul_one_r (p : Qc * Qc) : cmul p (gq 1 0) = p.
Proof.
  destruct p as [a b]. unfold cmul, gq. simpl.
  change (q 1) with 1%Qc. change (q 0) with 0%Qc. f_equal; ring.
Qed.

Lemma gauss_cmul_zero_r (p : Qc * Qc) : cmul p czero = czero.
Proof. destruct p as [a b]. unfold cmul, czero. simpl. f_equal; ring. Qed.

Lemma gauss_half_sum (p0 p1 : Qc * Qc) :
  (λ a, cdiv_size a 2) <$> [cadd (cadd p0 p1) (csub p0 p1);
                            csub (cadd p0 p1) (csub p0 p1)]
  = [p0; p1].
Proof.
  destruct p0 as [a b], p1 as [c d]. unfold cdiv_size, cadd, csub. simpl.
  assert (Htwo : q 2 = (1 + 1)%Qc) by evaluate.
  change (Z.of_nat 2) with 2%Z. rewrite Htwo.
  repeat f_equal; field; discriminate.
Qed.

Section round_trip_short.
Context (unit_root : Z → nat → nat → Qc * Qc).
Hypothesis root_zero : ∀ inv N, unit_root inv N 0 = gq 1 0.

(** Forward and back on one value, in any state of the cache, and on two
    values, when the cache does not hold exactly one value, give the
    buffer back; in between, two values [p0, p1] are [p0 + p1, p0 - p1].
    The arithmetic is exact. *)
Theorem FFT_round_trip_short p0 p1 roots :
  returns (FFT unit_root [p0] 1 roots) (λ st,
    st.1 = [p0] ∧
    returns (FFT unit_root st.1 (-1) st.2) (λ st', st'.1 = [p0])) ∧
  (length roots ≠ 1 →
   returns (FFT unit_root [p0; p1] 1 roots) (λ st,
     st.1 = [cadd p0 p1; csub p0 p1] ∧
     returns (FFT unit_root st.1 (-1) st.2) (λ st', st'.1 = [p0; p1]))).
Proof.
  split.
  - rewrite FFT_one. rewrite bool_decide_false by discriminate.
    assert (Hdiv : cdiv_size p0 1 = p0).
    { destruct p0 as [a b]. unfold cdiv_size. simpl.
      change (q (Z.of_nat 1)) with 1%Qc. f_equal; field; discriminate. }
    destruct (bool_decide (length roots ≠ 0)); rewrite bind_Ret;
      apply returns_Ret; (split; [reflexivity|]); cbn [fst snd];
      rewrite FFT_one, bool_decide_true by reflexivity;
      match goal with
      | |- context [bool_decide (length ?r ≠ 0)] =>
          destruct (bool_decide (length r ≠ 0))
      end; rewrite bind_Ret; apply returns_Ret; cbn [fst]; rewrite Hdiv; reflexivity.
  - intros Hlen. rewrite FFT_two.
    rewrite (bool_decide_true (length roots ≠ 1)) by exact Hlen.
    rewrite root_zero, bind_Ret, stages_two, bind_Ret.
    rewrite (bool_decide_false (1%Z = (-1)%Z)) by discriminate.
    rewrite !gauss_cmul_one_r.
    apply returns_Ret. split; [reflexivity|]. cbn [fst snd].
    rewrite FFT_two.
    rewrite (bool_decide_true (length [gq 1 0; czero] ≠ 1)) by (simpl; lia).
    rewrite root_zero, bind_Ret, stages_two, bind_Ret.
    rewrite (bool_decide_true ((-1)%Z = (-1)%Z)) by reflexivity.
    rewrite !gauss_cmul_one_r.
    apply returns_Ret. cbn [fst]. apply gauss_half_sum.
Qed.

(** The one state of the cache in which two values do not survive: after
    a transform of length 1 has refilled the cache, the transform of
    length 2 takes the zero it finds there for the root 1, leaves the
    cache as it is, and returns [p0, p0]. *)
Theorem FFT_two_after_one p0 p1 roots :
  cache_state unit_root roots → length roots = 1 →
  FFT unit_root [p0; p1] 1 roots = Ret ([p0; p0], roots).
Proof.
  intros Hcache Hlen.
  rewrite (cache_state_one unit_root roots Hcache Hlen).
  rewrite FFT_two.
  rewrite (bool_decide_false (length [czero] ≠ 1)) by (simpl; lia).
  rewrite bind_Ret, stages_two, bind_Ret.
  rewrite (bool_decide_false (1%Z = (-1)%Z)) by discriminate.
  rewrite gauss_cmul_zero_r.
  destruct p0 as [a b]. unfold cadd, csub, czero. simpl.
  repeat f_equal; ring.
Qed.

End round_trip_short.

(** ** Printing *)

Lemma string_app_nil_r (s : string) : s +:+ EmptyString = s.
Proof.
  induction s as [|c s IH]; [reflexivity|].
  change (String c (s +:+ EmptyString) = String c s). f_equal. exact IH.
Qed.

Lemma string_app_assoc (s1 s2 s3 : string) :
  (s1 +:+ s2) +:+ s3 = s1 +:+ s2 +:+ s3.
Proof.
  induction s1 as [|c s1 IH]; [reflexivity|].
  change (String c ((s1 +:+ s2) +:+ s3) = String c (s1 +:+ s2 +:+ s3)).
  f_equal. exact IH.
Qed.

Section printing.
Context {T : Type} `{Numeric T}.
Context (show : T → string).

(** The inner loop, from column [length done] on, writes the rest of the
    row. *)
Lemma print_row_loop (m : matrix T) i c row :
  data m !! i = Some row → columns m = c → length row = c →
  (Z.of_nat c < size_max)%Z →
  ∀ rest done out,
    row = done ++ rest →
    for_count (length rest) (length done) (λ j out,
      t ← mat_at m i j;
      let out := out +:+ show t in
      Ret (if (Z.of_nat j <? to_size (Z.of_nat (columns m) - 1))%Z
           then out +:+ " " else out)) out
    = Ret (out +:+ print_row show rest).
Proof.
  intros Hrow Hcols Hlen Hsize. subst c.
  induction rest as [|t rest IH]; intros done out Hsplit.
  - simpl. rewrite string_app_nil_r. reflexivity.
  - assert (Hc : columns m = length done + S (length rest)).
    { rewrite <- Hlen, Hsplit, length_app. reflexivity. }
    assert (Hat : mat_at m i (length done) = Ret t).
    { unfold mat_at, vec_get. rewrite Hrow. simpl. rewrite Hsplit.
      rewrite list_lookup_middle by reflexivity. reflexivity. }
    cbn [for_count length]. rewrite Hat, bind_Ret. cbv zeta.
    rewrite bind_Ret.
    specialize (IH (done ++ [t]) ).
    rewrite length_app in IH. simpl in IH.
    replace (length done + 1) with (S (length done)) in IH by lia.
    rewrite IH by (rewrite <- app_assoc; exact Hsplit).
    destruct rest as [|t' rest].
    + rewrite to_size_small by lia.
      destruct (Z.ltb_spec (Z.of_nat (length done)) (Z.of_nat (columns m) - 1)) as [Hlt|_].
      * simpl in Hc. lia.
      * simpl. rewrite !string_app_nil_r. reflexivity.
    + rewrite to_size_small by lia.
      destruct (Z.ltb_spec (Z.of_nat (length done)) (Z.of_nat (columns m) - 1)) as [_|Hge].
      * change (print_row show (t :: t' :: rest))
          with (show t +:+ " " +:+ print_row show (t' :: rest)).
        rewrite !string_app_assoc. reflexivity.
      * simpl in Hc. lia.
Qed.

(** [operator<<] writes a rectangular matrix row by row: the entries of a
    row with one space between them and none after the last, then a line
    feed.  A matrix without columns is written as one empty line per
    row. *)
Theorem print_text r c (m : matrix T) out :
  rect r c m → (Z.of_nat c < size_max)%Z →
  print show out m = Ret (out +:+ print_rows show (data m)).
Proof.
  intros Hm Hsize. unfold print, for_range. rewrite !Nat.sub_0_r.
  destruct (decide (r = 0)) as [->|Hr].
  { apply rect_empty_data in Hm. unfold rows. rewrite Hm. simpl.
    rewrite string_app_nil_r. reflexivity. }
  rewrite (rows_rect r c m) by exact Hm.
  pose proof (columns_rect r c m Hm ltac:(lia)) as Hcols.
  destruct Hm as [Hlen Hall]. rewrite Forall_lookup in Hall. subst c.
  assert (Hloop : ∀ rest done out,
    data m = done ++ rest →
    for_count (length rest) (length done) (λ i out,
      out ← for_count (columns m) 0 (λ j out,
               t ← mat_at m i j;
               let out := out +:+ show t in
               Ret (if (Z.of_nat j <? to_size (Z.of_nat (columns m) - 1))%Z
                    then out +:+ " " else out)) out;
      Ret (out +:+ String (Ascii.ascii_of_nat 10) EmptyString)) out
    = Ret (out +:+ print_rows show rest)).
  { induction rest as [|row rest IH]; intros done out' Hsplit.
    - simpl. rewrite string_app_nil_r. reflexivity.
    - assert (Hrow : data m !! length done = Some row).
      { rewrite Hsplit. apply list_lookup_middle. reflexivity. }
      pose proof (Hall _ _ Hrow) as Hrowlen.
      pose proof (print_row_loop m (length done) (columns m) row Hrow eq_refl
                    Hrowlen Hsize row [] out' eq_refl) as Hinner.
      rewrite Hrowlen in Hinner. cbn [length] in Hinner.
      cbn [for_count length]. rewrite Hinner, !bind_Ret.
      specialize (IH (done ++ [row])).
      rewrite length_app in IH. simpl in IH.
      replace (length done + 1) with (S (length done)) in IH by lia.
      rewrite IH by (rewrite <- app_assoc; exact Hsplit).
      cbn [print_rows]. rewrite !string_app_assoc. reflexivity. }
  specialize (Hloop (data m) [] out eq_refl). rewrite Hlen in Hloop.
  exact Hloop.
Qed.

End printing.

(** ** vector.h *)

Section vector_facts.
Context {T : Type} `{Numeric T}.

(** [to_matrix] builds a matrix of 3 rows and 1 column and then writes
    [ret(0,1)]: a write past the end of row 0, for every vector.  No column
    matrix is returned. *)
Theorem to_matrix_out_of_range (u : vector_h.vector T) :
  vector_h.to_matrix u = Undefined.
Proof. reflexivity. Qed.

Hypothesis ring_laws : ring_theory zero one add mul sub neg (@eq T).
Add Ring vector_ring : ring_laws.

(** Binary [operator-], written as the sum with the negated operand, is the
    componentwise difference. *)
Theorem vsub_components (u v : vector_h.vector T) :
  vector_h.vsub u v
  = vector_h.Vector (sub (vector_h.x u) (vector_h.x v))
                    (sub (vector_h.y u) (vector_h.y v))
                    (sub (vector_h.z u) (vector_h.z v)).
Proof.
  unfold vector_h.vsub, vector_h.vadd, vector_h.vneg. simpl.
  f_equal; ring.
Qed.

(** The product [operator^] is orthogonal to both operands under the dot
    product [operator*], and changes sign when the operands are swapped. *)
Theorem cross_orthogonal (u v : vector_h.vector T) :
  vector_h.dot u (vector_h.cross u v) = zero
  ∧ vector_h.dot v (vector_h.cross u v) = zero
  ∧ vector_h.cross v u = vector_h.vneg (vector_h.cross u v).
Proof.
  destruct u as [a b c], v as [d e f].
  unfold vector_h.dot, vector_h.cross, vector_h.vneg. simpl.
  split_and!; [ring|ring|f_equal; ring].
Qed.

(** Lagrange's identity: the squared magnitude of [u ^ v] is the product of
    the squared magnitudes less the square of the dot product. *)
Theorem cross_magnitude (u v : vector_h.vector T) :
  vector_h.magnitude (vector_h.cross u v)
  = sub (mul (vector_h.magnitude u) (vector_h.magnitude v))
        (mul (vector_h.dot u v) (vector_h.dot u v)).
Proof.
  destruct u as [a b c], v as [d e f].
  unfold vector_h.magnitude, vector_h.dot, vector_h.cross. simpl. ring.
Qed.

(** Scaling distributes over the sum and is linear in the dot product. *)
Theorem vscale_linear (u v : vector_h.vector T) (t : T) :
  vector_h.vscale (vector_h.vadd u v) t
  = vector_h.vadd (vector_h.vscale u t) (vector_h.vscale v t)
  ∧ vector_h.dot (vector_h.vscale u t) v = mul t (vector_h.dot u v).
Proof.
  destruct u as [a b c], v as [d e f].
  unfold vector_h.vscale, vector_h.vadd, vector_h.dot. simpl.
  split; [f_equal; ring|ring].
Qed.

End vector_facts.

(** ** The statements above on rational matrices and Gaussian rationals *)

Lemma rect_qmatrix_2_3 : rect 2 3 (qmatrix [[1; 2; 3]; [4; 5; 6]]%Z).
Proof. split; [reflexivity|]. repeat constructor. Qed.

Lemma rect_qmatrix_3_2 : rect 3 2 (qmatrix [[1; 0]; [0; 1]; [2; 2]]%Z).
Proof. split; [reflexivity|]. repeat constructor. Qed.

Lemma rect_qmatrix_2_2 : rect 2 2 (qmatrix [[4; 3]; [6; 3]]%Z).
Proof. split; [reflexivity|]. repeat constructor. Qed.

Lemma matrix_copy_equal_witness :
  matrix_copy (qmatrix [[1; 2; 3]; [4; 5; 6]]%Z)
  = Ret (qmatrix [[1; 2; 3]; [4; 5; 6]]%Z).
Proof. exact (matrix_copy_equal 2 3 _ rect_qmatrix_2_3). Defined.

Lemma transpose_entries_witness :
  returns (transpose (qmatrix [[1; 2; 3]; [4; 5; 6]]%Z)) (λ m',
    rect 3 2 m' ∧
    ∀ i j, i < 2 → j < 3 →
      entry m' j i = entry (qmatrix [[1; 2; 3]; [4; 5; 6]]%Z) i j).
Proof.
  refine (transpose_entries 2 3 _ rect_qmatrix_2_3 _). lia.
Defined.


Lemma matrix_scale_entries_witness :
  returns (matrix_scale (qmatrix [[1; 2; 3]; [4; 5; 6]]%Z) (q 2)) (λ m',
    rect 2 3 m' ∧
    ∀ i j, i < 2 → j < 3 →
      entry m' i j
      = mul (entry (qmatrix [[1; 2; 3]; [4; 5; 6]]%Z) i j) (q 2)).
Proof. exact (matrix_scale_entries 2 3 _ (q 2) rect_qmatrix_2_3). Defined.

Lemma matrix_mul_entries_witness :
  returns (matrix_mul (qmatrix [[1; 2; 3]; [4; 5; 6]]%Z)
                      (qmatrix [[1; 0]; [0; 1]; [2; 2]]%Z)) (λ m,
    rect 2 2 m ∧
    ∀ i j, i < 2 → j < 2 →
      entry m i j
      = mul_sum (qmatrix [[1; 2; 3]; [4; 5; 6]]%Z)
                (qmatrix [[1; 0]; [0; 1]; [2; 2]]%Z) i j 3).
Proof.
  refine (matrix_mul_entries 2 3 2 _ _ rect_qmatrix_2_3 rect_qmatrix_3_2 _ _);
    lia.
Defined.

Lemma matrix_mul_empty_left_witness :
  matrix_mul (Matrix []) (qmatrix [[4; 3]; [6; 3]]%Z)
  = if decide (2 = 0) then Ret (Matrix []) else AssertFail.
Proof. exact (matrix_mul_empty_left 2 2 _ rect_qmatrix_2_2). Defined.

Lemma matrix_mul_identity_witness :
  (e ← identity 3; matrix_mul (qmatrix [[1; 2; 3]; [4; 5; 6]]%Z) e)
  = Ret (qmatrix [[1; 2; 3]; [4; 5; 6]]%Z) ∧
  (e ← identity 2; matrix_mul e (qmatrix [[1; 2; 3]; [4; 5; 6]]%Z))
  = Ret (qmatrix [[1; 2; 3]; [4; 5; 6]]%Z).
Proof.
  refine (matrix_mul_identity Qcrt 2 3 _ rect_qmatrix_2_3 _ _); lia.
Defined.

Lemma inverse_safe_witness :
  if decide (2 = 3)
  then returns (inverse (qmatrix [[1; 2; 3]; [4; 5; 6]]%Z)) (square 2)
       ∨ inverse (qmatrix [[1; 2; 3]; [4; 5; 6]]%Z)
         = Throw degenerate_matrix_error
  else inverse (qmatrix [[1; 2; 3]; [4; 5; 6]]%Z) = AssertFail.
Proof.
  refine (inverse_safe 2 3 _ rect_qmatrix_2_3 _). lia.
Defined.

Lemma determinant_safe_witness :
  if decide (2 = 2)
  then ∃ t, determinant (qmatrix [[4; 3]; [6; 3]]%Z) = Ret t
  else determinant (qmatrix [[4; 3]; [6; 3]]%Z) = AssertFail.
Proof.
  refine (determinant_safe 2 2 _ rect_qmatrix_2_2 _ _); [lia|reflexivity].
Defined.

(** The rationals are a field; the inverse is [1 / x]. *)
Lemma Qc_field_laws :
  field_theory 0%Qc 1%Qc Qcplus Qcmult Qcminus Qcopp Qcdiv
    (λ x, Qcdiv 1 x) eq.
Proof.
  split.
  - exact Qcrt.
  - discriminate.
  - intros x y. unfold Qcdiv. ring.
  - intros x Hx. field. exact Hx.
Qed.

Lemma inverse_two_by_two_witness :
  inverse (M22 (q 4) (q 3) (q 6) (q 3))
  = if eqb (det22 (q 4) (q 3) (q 6) (q 3)) zero
    then Throw degenerate_matrix_error
    else Ret (M22 (div (q 3) (det22 (q 4) (q 3) (q 6) (q 3)))
                  (div (neg (q 3)) (det22 (q 4) (q 3) (q 6) (q 3)))
                  (div (neg (q 6)) (det22 (q 4) (q 3) (q 6) (q 3)))
                  (div (q 4) (det22 (q 4) (q 3) (q 6) (q 3)))).
Proof.
  exact (inverse_two_by_two Qc_field_laws (q 4) (q 3) (q 6) (q 3)).
Defined.

Lemma determinant_two_by_two_witness :
  determinant (M22 (q 4) (q 3) (q 6) (q 3))
  = Ret (det22 (q 4) (q 3) (q 6) (q 3)).
Proof.
  exact (determinant_two_by_two Qc_field_laws (q 4) (q 3) (q 6) (q 3)).
Defined.

Lemma FFT_returns_padded_witness :
  returns (FFT exact_roots [gq 1 0; gq 2 0; gq 3 0] 1 []) (λ st,
    ∃ b, length st.1 = 2 ^ b ∧ length [gq 1 0; gq 2 0; gq 3 0] ≤ 2 ^ b ∧
         (b = 0 ∨ 2 ^ (b - 1) < length [gq 1 0; gq 2 0; gq 3 0])).
Proof.
  refine (FFT_returns_padded exact_roots [gq 1 0; gq 2 0; gq 3 0] 1 [] _).
  simpl. lia.
Defined.

Lemma FFT_round_trip_short_witness :
  returns (FFT exact_roots [gq 3 1] 1 []) (λ st,
    st.1 = [gq 3 1] ∧
    returns (FFT exact_roots st.1 (-1) st.2) (λ st', st'.1 = [gq 3 1])) ∧
  (length (@nil (Qc * Qc)) ≠ 1 →
   returns (FFT exact_roots [gq 3 1; gq 2 5] 1 []) (λ st,
     st.1 = [cadd (gq 3 1) (gq 2 5); csub (gq 3 1) (gq 2 5)] ∧
     returns (FFT exact_roots st.1 (-1) st.2) (λ st',
       st'.1 = [gq 3 1; gq 2 5]))).
Proof.
  exact (FFT_round_trip_short exact_roots exact_roots_zero (gq 3 1) (gq 2 5) []).
Defined.

Lemma FFT_two_after_one_witness :
  FFT exact_roots [gq 3 1; gq 2 5] 1 [gq 0 0]
  = Ret ([gq 3 1; gq 3 1], [gq 0 0]).
Proof.
  refine (FFT_two_after_one exact_roots (gq 3 1) (gq 2 5) [gq 0 0] _ _).
  - right. exists 1%Z, 1. reflexivity.
  - reflexivity.
Defined.

Lemma print_text_witness :
  print show_sign "m:" (qmatrix [[4; 0]; [0; 3]]%Z)
  = Ret ("m:" +:+ print_rows show_sign (data (qmatrix [[4; 0]; [0; 3]]%Z))).
Proof.
  refine (print_text show_sign 2 2 (qmatrix [[4; 0]; [0; 3]]%Z) "m:" _ _).
  - split; [reflexivity|]. repeat constructor.
  - reflexivity.
Defined.

Lemma vsub_components_witness :
  vector_h.vsub (vector_h.Vector (q 1) (q 2) (q 3))
                (vector_h.Vector (q 4) (q 5) (q 6))
  = vector_h.Vector (q 1 - q 4)%Qc (q 2 - q 5)%Qc (q 3 - q 6)%Qc.
Proof.
  exact (vsub_components Qcrt (vector_h.Vector (q 1) (q 2) (q 3))
           (vector_h.Vector (q 4) (q 5) (q 6))).
Defined.

Lemma cross_orthogonal_witness :
  vector_h.dot (vector_h.Vector (q 1) (q 2) (q 3))
    (vector_h.cross (vector_h.Vector (q 1) (q 2) (q 3))
                    (vector_h.Vector (q 4) (q 5) (q 6))) = 0%Qc
  ∧ vector_h.dot (vector_h.Vector (q 4) (q 5) (q 6))
      (vector_h.cross (vector_h.Vector (q 1) (q 2) (q 3))
                      (vector_h.Vector (q 4) (q 5) (q 6))) = 0%Qc
  ∧ vector_h.cross (vector_h.Vector (q 4) (q 5) (q 6))
                   (vector_h.Vector (q 1) (q 2) (q 3))
    = vector_h.vneg
        (vector_h.cross (vector_h.Vector (q 1) (q 2) (q 3))
                        (vector_h.Vector (q 4) (q 5) (q 6))).
Proof.
  exact (cross_orthogonal Qcrt (vector_h.Vector (q 1) (q 2) (q 3))
           (vector_h.Vector (q 4) (q 5) (q 6))).
Defined.

Lemma cross_magnitude_witness :
  vector_h.magnitude
    (vector_h.cross (vector_h.Vector (q 1) (q 2) (q 3))
                    (vector_h.Vector (q 4) (q 5) (q 6)))
  = (vector_h.magnitude (vector_h.Vector (q 1) (q 2) (q 3))
     * vector_h.magnitude (vector_h.Vector (q 4) (q 5) (q 6))
     - vector_h.dot (vector_h.Vector (q 1) (q 2) (q 3))
                    (vector_h.Vector (q 4) (q 5) (q 6))
       * vector_h.dot (vector_h.Vector (q 1) (q 2) (q 3))
                      (vector_h.Vector (q 4) (q 5) (q 6)))%Qc.
Proof.
  exact (cross_magnitude Qcrt (vector_h.Vector (q 1) (q 2) (q 3))
           (vector_h.Vector (q 4) (q 5) (q 6))).
Defined.

Lemma vscale_linear_witness :
  vector_h.vscale
    (vector_h.vadd (vector_h.Vector (q 1) (q 2) (q 3))
                   (vector_h.Vector (q 4) (q 5) (q 6))) (q 2)
  = vector_h.vadd
      (vector_h.vscale (vector_h.Vector (q 1) (q 2) (q 3)) (q 2))
      (vector_h.vscale (vector_h.Vector (q 4) (q 5) (q 6)) (q 2))
  ∧ vector_h.dot (vector_h.vscale (vector_h.Vector (q 1) (q 2) (q 3)) (q 2))
                 (vector_h.Vector (q 4) (q 5) (q 6))
    = (q 2 * vector_h.dot (vector_h.Vector (q 1) (q 2) (q 3))
                          (vector_h.Vector (q 4) (q 5) (q 6)))%Qc.
Proof.
  exact (vscale_linear Qcrt (vector_h.Vector (q 1) (q 2) (q 3))
           (vector_h.Vector (q 4) (q 5) (q 6)) (q 2)).
Defined.
